(** * SMWS lookup bot: the name resolver and the record presenter

    A shallow embedding of [cogs/brand_commands.py] (class [BrandCommands])
    and of the part of [main.py] that loads it.

    Python values are modelled as follows.
    - [str] is a sequence of Unicode code points, [list N]; a literal is
      written [py "text"].
    - [dict] used as a map is a [gmap]; a [set] of codes is a [gset];
      [list(s)] on a set is [elements s].
    - a JSON list is a [list]; a JSON object of the dataset is a record whose
      fields are [option]s ([None] when the key is absent).
    - an exception is a value [Raise e] of the type [result]. *)

From Stdlib Require Import ZArith NArith List String Ascii Lia Bool.
From Stdlib Require Import DecimalString QArith Permutation Sorting.Sorted.
From stdpp Require Import base option list gmap fin_maps fin_sets.

Local Open Scope N_scope.

(** ** Strings *)

Module PyStr.

Abbreviation str := (list N).

(** A literal of 7-bit characters, as code points. *)
Definition py (s : string) : str :=
  List.map N_of_ascii (list_ascii_of_string s).

Definition between (lo hi c : N) : bool := (lo <=? c) && (c <=? hi).

(** [str.lower] on one character.  Basic Latin and Latin-1 Supplement carry
    their Unicode lower-case mapping; every character above U+00FF is left
    as it is. *)
Definition lower_char (c : N) : N :=
  if between 65 90 c then c + 32
  else if between 192 214 c || between 216 222 c then c + 32
  else c.

Definition lower (s : str) : str := List.map lower_char s.

(** [str.upper] on one character: U+00DF becomes "SS", U+00B5 becomes
    U+039C and U+00FF becomes U+0178, as in Python. *)
Definition upper_char (c : N) : str :=
  if between 97 122 c then [c - 32]
  else if between 224 246 c || between 248 254 c then [c - 32]
  else if c =? 181 then [924]
  else if c =? 223 then [83; 83]
  else if c =? 255 then [376]
  else [c].

Definition upper (s : str) : str := List.flat_map upper_char s.

(** [str.isspace] on one character (Unicode white space). *)
Definition is_space (c : N) : bool :=
  between 9 13 c || between 28 32 c || (c =? 133) || (c =? 160)
  || (c =? 5760) || between 8192 8202 c || (c =? 8232) || (c =? 8233)
  || (c =? 8239) || (c =? 8287) || (c =? 12288).

Fixpoint lstrip (s : str) : str :=
  match s with
  | c :: s' => if is_space c then lstrip s' else s
  | [] => []
  end.

Definition rstrip (s : str) : str := rev (lstrip (rev s)).

(** [s.strip()] *)
Definition strip (s : str) : str := rstrip (lstrip s).

(** [s[:n]] for [0 <= n]. *)
Definition slice_to (n : nat) (s : str) : str := firstn n s.

(** [str(z)] for an [int]. *)
Definition str_of_int (z : Z) : str :=
  py (NilZero.string_of_int (Z.to_int z)).

(** [sep.join(l)] *)
Fixpoint join (sep : str) (l : list str) : str :=
  match l with
  | [] => []
  | [x] => x
  | x :: l' => x ++ sep ++ join sep l'
  end.

(** Comparison of strings, by code points ([<] on [str]). *)
Fixpoint str_ltb (s t : str) : bool :=
  match s, t with
  | _, [] => false
  | [], _ :: _ => true
  | c :: s', d :: t' => (c <? d) || ((c =? d) && str_ltb s' t')
  end.

Definition str_leb (s t : str) : bool := negb (str_ltb t s).

End PyStr.
Import PyStr.

(** ** Exceptions *)

Inductive exn : Type :=
  | KeyError (key : str).

Inductive result (A : Type) : Type :=
  | Ok (a : A)
  | Raise (e : exn).
Arguments Ok {A} a.
Arguments Raise {A} e.

#[global] Instance result_ret : MRet result := fun A a => Ok a.
#[global] Instance result_bind : MBind result := fun A B f m =>
  match m with
  | Ok a => f a
  | Raise e => Raise e
  end.

(** [d[k]] on a dict *)
Definition getitem {V : Type} (d : gmap str V) (k : str) : result V :=
  match d !! k with
  | Some v => Ok v
  | None => Raise (KeyError k)
  end.

(** [obj[k]] on a JSON object, the value of the key being [field]. *)
Definition getkey {V : Type} (k : string) (field : option V) : result V :=
  match field with
  | Some v => Ok v
  | None => Raise (KeyError (py k))
  end.

(** ** The dataset ([data/brands.json]) *)

(** A code or an id of the dataset: a JSON number or a JSON string. *)
Inductive scalar : Type :=
  | JNum (z : Z)
  | JStr (s : str).

(** [str(v)] *)
Definition py_str (v : scalar) : str :=
  match v with
  | JNum z => str_of_int z
  | JStr s => s
  end.

Record details : Type := Details {
  description : option str;
  notes : option str
}.

(** One element of [data['brands']]; an absent key is [None]. *)
Record brand : Type := Brand {
  brand_id : option scalar;
  brand_name : option str;
  brand_codes : option (list scalar);
  brand_region : option str;
  brand_style : option str;
  brand_details : option details
}.

(** [{}] read as a [details] object *)
Definition no_details : details := Details None None.

(** ** The state of the cog *)

(** The value [brand_info] stored under each code. *)
Record brand_info : Type := BrandInfo {
  info_name : str;
  info_details : details;
  info_region : str;
  info_style : str
}.

Record cog : Type := Cog {
  brands : gmap str brand_info;
  distillery_codes : gmap str (gset str);
  name_variants : gmap str str
}.

Module BrandCommands.

(** The body of [for code in brand['codes']] in [load_brands]. *)
Definition store_code (b : brand) (info : brand_info)
    (brands : gmap str brand_info) (code : scalar) : gmap str brand_info :=
  let entry :=
    match brand_id b with
    | Some i =>
        if bool_decide (py_str i = py_str code)
        then BrandInfo (info_name info) (default no_details (brand_details b))
                       (info_region info) (info_style info)
        else info
    | None => info
    end in
  <[py_str code := entry]> brands.

(** The body of [for brand in data['brands']] in [load_brands], on the pair
    [(self.brands, self.distillery_codes)]. *)
Definition load_brand (st : gmap str brand_info * gmap str (gset str)) (b : brand)
    : result (gmap str brand_info * gmap str (gset str)) :=
  let '(brands, distillery_codes) := st in
  name ← getkey "name" (brand_name b);
  let info := BrandInfo name (default no_details (brand_details b))
                        (default [] (brand_region b)) (default [] (brand_style b)) in
  codes ← getkey "codes" (brand_codes b);
  let brands := fold_left (store_code b info) codes brands in
  let distillery_name := lower name in
  let distillery_codes :=
    match distillery_codes !! distillery_name with
    | Some _ => distillery_codes
    | None => <[distillery_name := ∅]> distillery_codes
    end in
  i ← getkey "id" (brand_id b);
  mret (brands,
        <[distillery_name :=
            default ∅ (distillery_codes !! distillery_name) ∪ {[py_str i]}]>
          distillery_codes).

(** [load_brands]: the loop over the records; the [except] clause logs and
    raises again. *)
Fixpoint load_brands_from (data : list brand)
    (st : gmap str brand_info * gmap str (gset str))
    : result (gmap str brand_info * gmap str (gset str)) :=
  match data with
  | [] => mret st
  | b :: data' => st' ← load_brand st b; load_brands_from data' st'
  end.

Definition load_brands (data : list brand)
    : result (gmap str brand_info * gmap str (gset str)) :=
  load_brands_from data (∅, ∅).

(** The literal [variants] of [initialize_name_variants], entry by entry as
    it is written. *)
Definition variants_literal : list (str * list str) := [
    (py "inverleven", [py "leven"; py "inver"]);
    (py "old pulteney", [py "pulteney"; py "pult"]);
    (py "glasgow distillery", [py "glasgow distillery company"; py "glasgow"]);
    (py "few spirits", [py "few"]);
    (py "isle of harris distillery", [py "hearach"]);
    (py "nc'nean distillery", [py "nc'nean"]);
    ((py "st. george" ++ [226; 8364; 8482] ++ py "s (the english whisky co.)"), [(py "st. george" ++ [226; 8364; 8482] ++ py "s"); py "the english whisky co."; py "the english whisky company"]);
    (py "springbank (hazelburn)", [py "hazelburn"]);
    (py "isle of arran", [py "arran"]);
    (py "braeval (braes of glenlivet)", [py "braeval"; py "braes of glenlivet"]);
    (py "miltonduff (mosstowie)", [py "miltonduff"; py "mosstowie"]);
    (py "glenburgie (glencraig)", [py "glenburgie"; py "glencraig"]);
    (py "glenury / glenury royal", [py "glenury"; py "glenury royal"]);
    (py "tobermory", [py "ledaig"]);
    (py "bruichladdich", [py "port charlotte"; py "octomore"; py "laddie"]);
    (py "laphroaig", [py "frog"]);
    (py "royal brackla", [py "brackla"]);
    (py "royal lochnagar", [py "lochnagar"]);
    (py "springbank (longrow)", [py "longrow"]);
    (py "knockdhu (ancnoc)", [py "knockdhu"; py "ancnoc"]);
    (py "cooley (unpeated)", [py "cooley"]);
    (py "cooley / connemara (peated)", [py "connemara"]);
    (py "breuckelen distilling", [py "breuckelen"]);
    (py "copperworks distilling Co.", [py "copperworks"]);
    (py "high coast distillery", [py "high coast"]);
    ((py "sm" ++ [195; 182] ++ py "gen whisky ab"), [py "smogen"]);
    (py "west cork distillers", [py "west cork"]);
    (py "mosgaard whisky", [py "mosgaard"]);
    (py "milk & honey distillery", [py "milk & honey"; py "milk and honey"]);
    (py "distillerie de warenghem", [py "warenghem"; py "armorik"]);
    (py "mars shinshu", [py "shinshu"]);
    (py "mars tsunuki:", [py "tsunuki"]);
    (py "nc'nean distillery", [py "nc'nean"]);
    (py "woodinville whiskey co.", [py "woodinville"]);
    (py "finger lakes distilling", [py "finger lakes"]);
    (py "new york distilling co.", [py "new york distilling"; py "perry's tot"; py "new york"]);
    (py "peerless distillery", [py "peerless"]);
    ((py "kyr" ++ [195; 182] ++ py " distillery"), [py "kyro"]);
    (py "journeyman distillery", [py "journeyman"]);
    (py "heaven hill distillery", [py "heaven hill"]);
    (py "demerara distillers (el dorado)", [py "demerara"; py "el dorado"]);
    (py "trinidad distillers (angostura)", [py "trinidad"; py "angostura"]);
    ((py "compa" ++ [195; 177] ++ py "ia licorera de nicaragua (flor de ca" ++ [195; 177] ++ py "a)"), [(py "flor de ca" ++ [195; 177] ++ py "a")]);
    (py "varela hermanos (ron abuelo)", [py "ron abuelo"]);
    (py "j. goudoulin (veuve goudoulin)", [py "goudoulin"]);
    (py "the borders distillery", [py "borders"; py "the borders"]);
    (py "holyrood distillery", [py "holyrood"]);
    (py "Isle of Raasay Distillery", [py "Raasay"])
  ].

(** A dict display: a key written twice keeps its first place and takes the
    later value. *)
Fixpoint dict_set {V : Type} (k : str) (v : V) (items : list (str * V)) : list (str * V) :=
  match items with
  | [] => [(k, v)]
  | (k', v') :: items' =>
      if bool_decide (k' = k) then (k, v) :: items' else (k', v') :: dict_set k v items'
  end.

Definition dict_display {V : Type} (l : list (str * V)) : list (str * V) :=
  fold_left (fun items kv => dict_set (fst kv) (snd kv) items) l [].

Definition variants : list (str * list str) :=
  Eval vm_compute in dict_display variants_literal.

(** The body of [for main_name, variant_list in variants.items()]. *)
Definition register_variants (name_variants : gmap str str) (entry : str * list str)
    : gmap str str :=
  let '(main_name, variant_list) := entry in
  let name_variants :=
    fold_left (fun nv variant => <[lower variant := main_name]> nv)
              variant_list name_variants in
  <[lower main_name := main_name]> name_variants.

Definition initialize_name_variants (name_variants : gmap str str) : gmap str str :=
  fold_left register_variants variants name_variants.

(** [__init__]: an exception of [load_brands] is logged and raised again. *)
Definition init (data : list brand) : result cog :=
  '(brands, distillery_codes) ← load_brands data;
  mret (Cog brands distillery_codes (initialize_name_variants ∅)).

End BrandCommands.

(** ** [difflib] (Python standard library)

    [SequenceMatcher] as [get_close_matches] uses it: no junk function,
    [autojunk] on, [a] the candidate and [b] the word.  The score
    [2.0 * matches / length] is kept as the exact rational; on strings
    shorter than 2^25 characters the comparisons of the rationals and of
    their floating-point roundings agree. *)

Module Difflib.

Local Open Scope nat_scope.

Fixpoint indices_from (i : nat) (x : N) (b : str) : list nat :=
  match b with
  | [] => []
  | y :: b' =>
      if (x =? y)%N then i :: indices_from (S i) x b' else indices_from (S i) x b'
  end.

(** [b2j.get(x, [])] after [__chain_b]: the places of [x] in [b], none when
    [x] is popular ([len(b) >= 200] and more than [len(b) // 100 + 1]
    occurrences). *)
Definition b2j (b : str) (x : N) : list nat :=
  let idxs := indices_from 0 x b in
  let n := length b in
  if (200 <=? n) && (n / 100 + 1 <? length idxs) then [] else idxs.

Record Match : Type := mkMatch { m_a : nat; m_b : nat; m_size : nat }.

(** [j2len.get(j - 1, 0)] *)
Definition prev_len (j2len : gmap nat nat) (j : nat) : nat :=
  match j with
  | O => 0
  | S j' => default 0 (j2len !! j')
  end.

(** [for j in b2j.get(a[i], nothing)] *)
Fixpoint scan_row (i blo bhi : nat) (j2len : gmap nat nat) (js : list nat)
    (newj2len : gmap nat nat) (best : Match) : gmap nat nat * Match :=
  match js with
  | [] => (newj2len, best)
  | j :: js' =>
      if j <? blo then scan_row i blo bhi j2len js' newj2len best
      else if bhi <=? j then (newj2len, best)
      else
        let k := prev_len j2len j + 1 in
        let best' := if m_size best <? k then mkMatch (i + 1 - k) (j + 1 - k) k else best in
        scan_row i blo bhi j2len js' (<[j := k]> newj2len) best'
  end.

(** [for i in range(alo, ahi)] *)
Definition scan_rows (a b : str) (alo ahi blo bhi : nat) : gmap nat nat * Match :=
  fold_left
    (fun (acc : gmap nat nat * Match) i =>
       scan_row i blo bhi (fst acc) (from_option (b2j b) [] (a !! i)) ∅ (snd acc))
    (seq alo (ahi - alo)) (∅, mkMatch alo blo 0).

(** [a[i] == b[j]] *)
Definition same_at (a b : str) (i j : nat) : bool :=
  match a !! i, b !! j with
  | Some x, Some y => (x =? y)%N
  | _, _ => false
  end.

(** The two [while] loops that extend the match; no element of [b] is junk. *)
Fixpoint extend_left (fuel : nat) (a b : str) (alo blo : nat) (m : Match) : Match :=
  match fuel with
  | O => m
  | S fuel' =>
      if (alo <? m_a m) && (blo <? m_b m) && same_at a b (m_a m - 1) (m_b m - 1)
      then extend_left fuel' a b alo blo (mkMatch (m_a m - 1) (m_b m - 1) (m_size m + 1))
      else m
  end.

Fixpoint extend_right (fuel : nat) (a b : str) (ahi bhi : nat) (m : Match) : Match :=
  match fuel with
  | O => m
  | S fuel' =>
      if (m_a m + m_size m <? ahi) && (m_b m + m_size m <? bhi)
         && same_at a b (m_a m + m_size m) (m_b m + m_size m)
      then extend_right fuel' a b ahi bhi (mkMatch (m_a m) (m_b m) (m_size m + 1))
      else m
  end.

Definition find_longest_match (a b : str) (alo ahi blo bhi : nat) : Match :=
  let m := snd (scan_rows a b alo ahi blo bhi) in
  let m := extend_left (m_a m) a b alo blo m in
  extend_right (ahi - (m_a m + m_size m)) a b ahi bhi m.

(** The sum of the sizes of [get_matching_blocks()]: the block of a region,
    then the regions on its left and on its right. *)
Fixpoint matches_in (fuel : nat) (a b : str) (alo ahi blo bhi : nat) : nat :=
  match fuel with
  | O => 0
  | S fuel' =>
      let m := find_longest_match a b alo ahi blo bhi in
      let i := m_a m in
      let j := m_b m in
      let k := m_size m in
      if k =? 0 then 0
      else k
           + (if (alo <? i) && (blo <? j) then matches_in fuel' a b alo i blo j else 0)
           + (if (i + k <? ahi) && (j + k <? bhi)
              then matches_in fuel' a b (i + k) ahi (j + k) bhi else 0)
  end.

Definition matches (a b : str) : nat :=
  matches_in (S (length a)) a b 0 (length a) 0 (length b).

(** [_calculate_ratio(matches, length)] *)
Definition calculate_ratio (matches length : nat) : Q :=
  match length with
  | O => 1%Q
  | S _ => (Z.of_nat (2 * matches) # Pos.of_nat length)%Q
  end.

Definition ratio (a b : str) : Q :=
  calculate_ratio (matches a b) (length a + length b).

(** [quick_ratio()]: the elements of [a] that [b] still has a copy of. *)
Fixpoint remove_one (x : N) (l : str) : option str :=
  match l with
  | [] => None
  | y :: l' => if (x =? y)%N then Some l' else cons y <$> remove_one x l'
  end.

Fixpoint quick_matches (a avail : str) : nat :=
  match a with
  | [] => 0
  | x :: a' =>
      match remove_one x avail with
      | Some avail' => S (quick_matches a' avail')
      | None => quick_matches a' avail
      end
  end.

Definition quick_ratio (a b : str) : Q :=
  calculate_ratio (quick_matches a b) (length a + length b).

Definition real_quick_ratio (a b : str) : Q :=
  calculate_ratio (Nat.min (length a) (length b)) (length a + length b).

(** Order of the pairs [(score, x)]. *)
Definition scored_leb (p q : Q * str) : bool :=
  if Qeq_bool (fst p) (fst q) then str_leb (snd p) (snd q)
  else Qle_bool (fst p) (fst q).

Fixpoint insert_desc (p : Q * str) (l : list (Q * str)) : list (Q * str) :=
  match l with
  | [] => [p]
  | q :: l' => if scored_leb q p then p :: q :: l' else q :: insert_desc p l'
  end.

(** [heapq.nlargest(n, result)], that is [sorted(result, reverse=True)[:n]]. *)
Definition nlargest (n : nat) (result : list (Q * str)) : list (Q * str) :=
  firstn n (fold_right insert_desc [] result).

Definition good_enough (word : str) (cutoff : Q) (x : str) : bool :=
  Qle_bool cutoff (real_quick_ratio x word)
  && Qle_bool cutoff (quick_ratio x word)
  && Qle_bool cutoff (ratio x word).

(** [get_close_matches(word, possibilities, n, cutoff)], for [n > 0] and
    [0 <= cutoff <= 1] (the calls of this program pass constants). *)
Definition get_close_matches (word : str) (possibilities : list str) (n : nat) (cutoff : Q)
    : list str :=
  let result :=
    List.map (fun x => (ratio x word, x)) (List.filter (good_enough word cutoff) possibilities) in
  List.map snd (nlargest n result).

End Difflib.

(** ** The commands of the cog *)

(** What a command sends with [interaction.followup.send]. *)
Record field : Type := Field {
  field_name : str;
  field_value : str;
  field_inline : bool
}.

Record embed : Type := Embed {
  title : str;
  embed_description : str;
  fields : list field
}.

(** [len(embed)] of discord.py: title, description, and the name and the
    value of every field (these embeds have no footer and no author). *)
Definition embed_len (e : embed) : nat :=
  (length (title e) + length (embed_description e)
   + list_sum (List.map (fun f => length (field_name f) + length (field_value f)) (fields e)))%nat.

Inductive reply : Type :=
  | SendText (content : str) (ephemeral : bool)
  | SendEmbed (e : embed).

(** The outcome of the [distillery] command up to the point where it
    starts to render the resolved distillery. *)
Inductive distillery_reply : Type :=
  | DidYouMean (name : str) (suggestions : list str)
  | NoCodesFound (name : str)
  | Resolved (distillery_name : str) (codes : list str)
  | ErrorOccurred.

Module Commands.
Import BrandCommands Difflib.

Local Open Scope nat_scope.

(** [k in d] *)
Definition contains {V : Type} (d : gmap str V) (k : str) : bool :=
  bool_decide (is_Some (d !! k)).

(** [list(d.keys())]; the callers sort what they take from it. *)
Definition keys {V : Type} (d : gmap str V) : list str := (map_to_list d).*1.

(** [find_distillery]; [(None, None)] is [None]. *)
Definition find_distillery (self : cog) (name : str) : result (option (str * list str)) :=
  let name_lower := lower name in
  by_variant ←
    (if contains (name_variants self) name_lower then
       standardized_name ← getitem (name_variants self) name_lower;
       if contains (distillery_codes self) (lower standardized_name) then
         codes ← getitem (distillery_codes self) (lower standardized_name);
         mret (Some (lower standardized_name, elements codes))
       else mret None
     else mret None);
  match by_variant with
  | Some found => mret (Some found)
  | None =>
      if contains (distillery_codes self) name_lower then
        codes ← getitem (distillery_codes self) name_lower;
        mret (Some (name_lower, elements codes))
      else
        let all_names := keys (distillery_codes self) in
        let suggestions := get_close_matches name_lower all_names 1 (3 # 5) in
        match suggestions with
        | closest_match :: _ =>
            codes ← getitem (distillery_codes self) closest_match;
            mret (Some (closest_match, elements codes))
        | [] => mret None
        end
  end.

(** [not x] on a string or a list *)
Definition falsy {A : Type} (l : list A) : bool :=
  match l with [] => true | _ :: _ => false end.

(** The block under [if not distillery_name or not codes]. *)
Definition suggest (self : cog) (name : str) : distillery_reply :=
  let all_names := keys (distillery_codes self) in
  let suggestions := get_close_matches (lower name) all_names 3 (1 # 2) in
  if falsy suggestions then NoCodesFound name else DidYouMean name suggestions.

(** The [distillery] command, until the embed is built. *)
Definition distillery (self : cog) (name : str) : distillery_reply :=
  match find_distillery self name with
  | Raise _ => ErrorOccurred
  | Ok None => suggest self name
  | Ok (Some (distillery_name, codes)) =>
      if falsy distillery_name || falsy codes then suggest self name
      else Resolved distillery_name codes
  end.

(** [next((brand for brand in data['brands'] if str(brand['id']).upper() == lookup_code), None)] *)
Fixpoint find_by_id (data : list brand) (lookup_code : str) : result (option brand) :=
  match data with
  | [] => mret None
  | b :: data' =>
      i ← getkey "id" (brand_id b);
      if bool_decide (upper (py_str i) = lookup_code) then mret (Some b)
      else find_by_id data' lookup_code
  end.

(** A free text field cut to the display limit. *)
Definition truncated (text : str) : str :=
  if 1024 <? length text then slice_to 1021 text ++ py "..." else text.

(** [[str(c) for c in brand['codes'] if str(c).upper() != lookup_code]] *)
Definition other_codes (codes : list scalar) (lookup_code : str) : list str :=
  List.map py_str
    (List.filter (fun c => negb (bool_decide (upper (py_str c) = lookup_code))) codes).

(** [embed.add_field(name=label, value=shown(text))] under
    [if key in obj and obj[key]]. *)
Definition text_field (label : string) (inline : bool) (shown : str → str)
    (value : option str) : list field :=
  match value with
  | Some text => if falsy text then [] else [Field (py label) (shown text) inline]
  | None => []
  end.

(** The fields added to the embed of [smws], in the order of the code. *)
Definition smws_fields (b : brand) (lookup_code : str) : list field :=
  text_field "Region" true id (brand_region b)
  ++ text_field "Style" true id (brand_style b)
  ++ match brand_details b with
     | Some d =>
         text_field "Description" false truncated (description d)
         ++ text_field "Notes" false truncated (notes d)
     | None => []
     end
  ++ match brand_codes b with
     | Some codes =>
         let others := other_codes codes lookup_code in
         if falsy others then []
         else [Field (py "Other SMWS Codes") (join (py ", ") (firstn 25 others)) false]
     | None => []
     end.

Definition smws_embed (b : brand) (name code lookup_code : str) : embed :=
  Embed (py "SMWS Code " ++ code) name (smws_fields b lookup_code).

Definition too_large : str :=
  py "The response is too large. Please contact the bot administrator.".

(** The [smws] command on the dataset read from the file. *)
Definition smws (data : list brand) (code : str) : reply :=
  let lookup_code := upper (strip code) in
  let answer :=
    found ← find_by_id data lookup_code;
    match found with
    | None => mret (SendText (py "No distillery found with ID " ++ code) true)
    | Some b =>
        name ← getkey "name" (brand_name b);
        let e := smws_embed b name code lookup_code in
        if (6000 <? N.of_nat (embed_len e))%N then mret (SendText too_large true)
        else mret (SendEmbed e)
    end in
  match answer with
  | Ok r => r
  | Raise _ => SendText (py "An error occurred while processing your request.") true
  end.

End Commands.

(** ** Loading the extension ([main.py]) *)

Inductive startup : Type :=
  | ExtensionLoaded (self : cog)
  | ExtensionFailed (e : exn).

(** [setup_hook]: the exception of a failed [load_extension] is printed and
    the bot goes on without the cog. *)
Definition setup_hook (data : list brand) : startup :=
  match BrandCommands.init data with
  | Ok self => ExtensionLoaded self
  | Raise e => ExtensionFailed e
  end.

(** ** The resolver as the specification words it

    Three stages, each an [option]; a later stage is consulted only when the
    earlier ones gave nothing. *)

Module Stages.
Import Commands Difflib.

Definition alias_stage (self : cog) (name : str) : option (str * list str) :=
  canonical ← name_variants self !! lower name;
  codes ← distillery_codes self !! lower canonical;
  Some (lower canonical, elements codes).

Definition direct_stage (self : cog) (name : str) : option (str * list str) :=
  codes ← distillery_codes self !! lower name;
  Some (lower name, elements codes).

Definition fuzzy_stage (self : cog) (name : str) : option (str * list str) :=
  best ← head (get_close_matches (lower name) (keys (distillery_codes self)) 1 (3 # 5));
  codes ← distillery_codes self !! best;
  Some (best, elements codes).

Definition or_else {A : Type} (first second : option A) : option A :=
  match first with
  | Some _ => first
  | None => second
  end.

Definition resolve_by_name (self : cog) (name : str) : option (str * list str) :=
  or_else (alias_stage self name)
          (or_else (direct_stage self name) (fuzzy_stage self name)).

End Stages.

(** ** Predicates used in the statements *)

(** The keys that [load_brands] reads with [brand[...]]. *)
Definition has_required_keys (b : brand) : bool :=
  bool_decide (is_Some (brand_name b))
  && bool_decide (is_Some (brand_codes b))
  && bool_decide (is_Some (brand_id b)).

(** Every spelling of the table, and every main name, leads to the main
    name of its own entry in [name_variants]. *)
Definition variants_unambiguous (name_variants : gmap str str) : bool :=
  forallb
    (fun entry : str * list str =>
       forallb (fun v => bool_decide (name_variants !! lower v = Some entry.1))
               (entry.1 :: entry.2))
    BrandCommands.variants.

(** Every entry of the index is non-empty and stands under the lower-cased
    name of a record. *)
Definition index_from (all : list brand) (dc : gmap str (gset str)) : Prop :=
  ∀ n S, dc !! n = Some S →
    S ≠ ∅ ∧ ∃ b name, b ∈ all ∧ brand_name b = Some name ∧ n = lower name.

(** What holds of the longest match and of [j2len] before row [i]. *)
Definition rows_inv (alo i : nat) (acc : gmap nat nat * Difflib.Match) : Prop :=
  (alo <= Difflib.m_a acc.2 ∧ Difflib.m_a acc.2 + Difflib.m_size acc.2 <= i
  ∧ ∀ j k, acc.1 !! j = Some k → k + alo <= i)%nat.

(** [l] is in ascending order of [str]. *)
Definition ascending (l : list str) : Prop :=
  Sorted (fun s t => str_leb s t = true) l.

(** The id of a record, ready for the comparison of [smws]. *)
Definition id_key (b : brand) : option str := (fun i => upper (py_str i)) <$> brand_id b.

(** ** Small datasets *)

Module Demo.

Definition record (i : scalar) (name : string) (codes : list scalar) : brand :=
  Brand (Some i) (Some (py name)) (Some codes) None None None.

(** An alias target next to a name that resembles the alias. *)
Definition leven_data : list brand := [
  record (JStr (py "77")) "Inverleven" [JStr (py "77")];
  record (JStr (py "5")) "Levens" [JStr (py "5")]
].

(** Two names close to a misspelt one. *)
Definition park_data : list brand := [
  record (JNum 4) "Highland Park" [JNum 4];
  record (JNum 200) "Highland Parc" [JNum 200]
].

(** A valid record followed by one without a name. *)
Definition broken_data : list brand := [
  record (JNum 23) "Glenfarclas" [JNum 23];
  Brand (Some (JNum 24)) None (Some [JNum 24]) None None None
].

Definition long_text (n : nat) : str := repeat 120%N n.

(** A record with a description of 1100 characters. *)
Definition wordy : brand :=
  Brand (Some (JNum 1)) (Some (py "Glen Wordy")) (Some [JNum 1]) (Some (py "Speyside")) None
        (Some (Details (Some (long_text 1100)) None)).


(** A record with codes besides its id, not in order. *)
Definition glen_one : brand :=
  record (JStr (py "G1")) "Glen One" [JStr (py "G1"); JStr (py "G3"); JStr (py "G2")].

Definition cog_of (data : list brand) : cog :=
  match BrandCommands.init data with
  | Ok self => self
  | Raise _ => Cog ∅ ∅ ∅
  end.

End Demo.

(** ** More of the strings *)

Module PyText.

(** [str.title], with the scope of [lower]: a character above U+00FF counts
    as uncased and is left as it is. *)
Definition is_cased (c : N) : bool :=
  between 65 90 c || between 97 122 c || (c =? 170) || (c =? 181) || (c =? 186)
  || between 192 214 c || between 216 246 c || between 248 255 c.

(** The title-case mapping of one character: that of [upper], but U+00DF
    becomes "Ss". *)
Definition title_char (c : N) : str :=
  if c =? 223 then [83; 115] else upper_char c.

Fixpoint title_from (previous_is_cased : bool) (s : str) : str :=
  match s with
  | [] => []
  | c :: s' =>
      (if previous_is_cased then [lower_char c] else title_char c)
      ++ title_from (is_cased c) s'
  end.

(** [s.title()] *)
Definition title (s : str) : str := title_from false s.

(** [s.replace('_', ' ')] *)
Definition replace_underscores (s : str) : str :=
  List.map (fun c => if c =? 95 then 32 else c) s.

(** [sorted(l)] on strings: a stable insertion into the sorted rest. *)
Fixpoint insert_sorted (x : str) (l : list str) : list str :=
  match l with
  | [] => [x]
  | y :: l' => if str_leb x y then x :: y :: l' else y :: insert_sorted x l'
  end.

Definition sorted (l : list str) : list str := fold_right insert_sorted [] l.

(** [sub in s] on strings *)
Fixpoint starts_with (sub s : str) : bool :=
  match sub, s with
  | [], _ => true
  | _ :: _, [] => false
  | c :: sub', d :: s' => (c =? d) && starts_with sub' s'
  end.

Fixpoint contains_str (sub s : str) : bool :=
  starts_with sub s
  || match s with
     | [] => false
     | _ :: s' => contains_str sub s'
     end.

End PyText.

(** ** The rest of the commands *)

Module MoreCommands.
Import BrandCommands Difflib Commands PyText.

Definition error_occurred : reply :=
  SendText (py "An error occurred while processing your request.") true.

(** [[brand for brand in data['brands'] if str(brand['id']) in codes]] *)
Fixpoint entries_of (data : list brand) (codes : list str) : result (list brand) :=
  match data with
  | [] => mret []
  | b :: data' =>
      i ← getkey "id" (brand_id b);
      rest ← entries_of data' codes;
      mret (if bool_decide (py_str i ∈ codes) then b :: rest else rest)
  end.

(** [if key in first_entry: embed.add_field(...)] *)
Definition key_field (label : string) (value : option str) : list field :=
  match value with
  | Some v => [Field (py label) v true]
  | None => []
  end.

(** The field added for one entry by the loop [for entry in entries]. *)
Definition details_field (entry : brand) : list field :=
  match brand_details entry, brand_id entry with
  | Some d, Some i =>
      match description d with
      | Some text => [Field (py "Details for code " ++ py_str i) text false]
      | None => []
      end
  | _, _ => []
  end.

(** The embed of [distillery]; it has no description. *)
Definition distillery_embed (distillery_name : str) (codes : list str)
    (first_entry : brand) (entries : list brand) : embed :=
  Embed (py "Distillery: " ++ title distillery_name) []
        (key_field "Region" (brand_region first_entry)
         ++ key_field "Style" (brand_style first_entry)
         ++ [Field (py "SMWS Codes") (join (py ", ") (sorted codes)) false]
         ++ flat_map details_field entries).

(** The text sent with the suggestions. *)
Definition did_you_mean (name : str) (suggestions : list str) : str :=
  py "No exact match found for '" ++ name ++ py "'" ++ [10; 10]
  ++ py "Did you mean one of these?" ++ [10] ++ join [10] (List.map title suggestions).

(** The [distillery] command on the dataset read from the file; both the
    [KeyError] of a record without id and the [IndexError] of [entries[0]]
    end in the handler of the command. *)
Definition distillery_command (self : cog) (data : list brand) (name : str) : reply :=
  match distillery self name with
  | ErrorOccurred => error_occurred
  | DidYouMean name suggestions => SendText (did_you_mean name suggestions) true
  | NoCodesFound name =>
      SendText (py "No SMWS codes found for distillery '" ++ name ++ py "'") true
  | Resolved distillery_name codes =>
      match entries_of data codes with
      | Raise _ => error_occurred
      | Ok [] => error_occurred
      | Ok (first_entry :: rest) =>
          SendEmbed (distillery_embed distillery_name codes first_entry (first_entry :: rest))
      end
  end.

(** [key.replace('_', ' ').title()] *)
Definition humanize (key : str) : str := title (replace_underscores key).

(** The [moreinfo] command; [details] is the content of
    [data/moreinfo.json], [None] when the file cannot be read. *)
Definition moreinfo (self : cog) (details : option (gmap str (list (str * str))))
    (name : str) : reply :=
  let fetch_error := SendText (py "An error occurred while fetching information.") true in
  match find_distillery self name with
  | Raise _ => fetch_error
  | Ok found =>
      let distillery_name := from_option fst [] found in
      if falsy distillery_name
      then SendText (py "No information found for " ++ name) true
      else
        match details with
        | None => fetch_error
        | Some details =>
            let info := default [] (details !! lower distillery_name) in
            if falsy info
            then SendText (py "No additional information found for " ++ distillery_name) true
            else SendEmbed
                   (Embed (title distillery_name) []
                          (List.map (fun kv => Field (humanize kv.1) kv.2 false) info))
        end
  end.

End MoreCommands.

(** ** Connecting with retries ([main.py]) *)

Module Retry.
Import PyText.

Local Open Scope nat_scope.

(** How [bot.start] ends in one attempt. *)
Inductive start_result : Type :=
  | Returned
  | RaisedHTTP (message : str)
  | RaisedOther.

(** What one attempt meets: the end of [bot.start] and the answer of
    [bot.is_closed()] in the [finally] clause. *)
Record attempt_env : Type := AttemptEnv {
  started : start_result;
  is_closed : bool
}.

Inductive event : Type :=
  | Start
  | Sleep (seconds : nat)
  | Close.

Inductive ending : Type :=
  | Completed
  | Reraised (attempt : nat).

Definition max_retries : nat := 3.
Definition base_delay : nat := 300.

(** ['429' in str(e) or 'rate limit' in str(e).lower()] *)
Definition is_rate_limit (message : str) : bool :=
  contains_str (py "429") message || contains_str (py "rate limit") (lower message).

(** The [finally] clause. *)
Definition cleanup (attempt : nat) (closed : bool) : list event :=
  if closed then []
  else Close :: (if attempt <? max_retries - 1 then [Sleep 30] else []).

(** A handler that waits [delay] seconds before the next attempt, or raises
    again on the last one. *)
Definition wait_or_raise (attempt delay : nat) : list event * option ending :=
  if attempt <? max_retries - 1 then ([Sleep delay], None)
  else ([], Some (Reraised attempt)).

(** One turn of the loop: its events, and how the loop ends if it ends
    here. *)
Definition attempt_step (attempt : nat) (env : attempt_env) : list event * option ending :=
  let handled :=
    match started env with
    | Returned => ([], Some Completed)
    | RaisedHTTP message =>
        if is_rate_limit message
        then wait_or_raise attempt (base_delay * 2 ^ attempt)
        else wait_or_raise attempt base_delay
    | RaisedOther => wait_or_raise attempt (base_delay * 2 ^ attempt)
    end in
  (Start :: handled.1 ++ cleanup attempt (is_closed env), handled.2).

Fixpoint run_from (attempts : list nat) (env : nat → attempt_env) : list event * ending :=
  match attempts with
  | [] => ([], Completed)
  | attempt :: rest =>
      let step := attempt_step attempt (env attempt) in
      match step.2 with
      | Some e => (step.1, e)
      | None => let later := run_from rest env in (step.1 ++ later.1, later.2)
      end
  end.

(** [run_bot_with_retry]: [for attempt in range(max_retries)]. *)
Definition run_bot_with_retry (env : nat → attempt_env) : list event * ending :=
  run_from (seq 0 max_retries) env.

Definition starts (events : list event) : nat :=
  length (List.filter (fun e => match e with Start => true | _ => false end) events).

Definition slept (events : list event) : nat :=
  list_sum (List.map (fun e => match e with Sleep n => n | _ => 0 end) events).

End Retry.

(** ** More predicates and datasets *)

(** The value that [load_brands] stores for a record. *)
Definition info_of (b : brand) : brand_info :=
  BrandInfo (default [] (brand_name b)) (default no_details (brand_details b))
            (default [] (brand_region b)) (default [] (brand_style b)).

(** [s] is one of the codes of the record, as a string. *)
Definition lists_code (s : str) (b : brand) : bool :=
  bool_decide (s ∈ py_str <$> default [] (brand_codes b)).

(** The scores of a list of names against [word] do not increase. *)
Definition ranked (word : str) (l : list str) : Prop :=
  Sorted (fun x y => (Difflib.ratio y word <= Difflib.ratio x word)%Q) l.

Module Demo2.
Import Demo.

(** Two records that list the code 7. *)
Definition clash_data : list brand := [
  record (JNum 7) "Glen First" [JNum 7; JNum 70];
  record (JNum 8) "Glen Second" [JNum 8; JNum 7]
].

(** Two records of one distillery, and a record of another. *)
Definition cooley_data : list brand := [
  Brand (Some (JStr (py "118"))) (Some (py "Cooley")) (Some [JStr (py "118")])
        (Some (py "Ireland")) None (Some (Details (Some (long_text 1100)) None));
  record (JStr (py "117")) "Cooley" [JStr (py "117")];
  record (JStr (py "4")) "Highland Park" [JStr (py "4")]
].

(** A record whose name is a spelling registered for another name. *)
Definition shadow_data : list brand := [
  record (JStr (py "77")) "Inverleven" [JStr (py "77")];
  record (JStr (py "500")) "Leven" [JStr (py "500")]
].

(** Three names, two of them half like "nrard". *)
Definition islay_data : list brand := [
  record (JNum 33) "Ardbeg" [JNum 33];
  record (JNum 66) "Ardmore" [JNum 66];
  record (JNum 54) "Aberlour" [JNum 54]
].

(** Extended information for one distillery. *)
Definition info_file : gmap str (list (str * str)) :=
  {[ py "inverleven" := [(py "founded_in", py "1938"); (py "status", py "closed")] ]}.

(** Two rate-limited attempts, then a start that returns. *)
Definition twice_limited (attempt : nat) : Retry.attempt_env :=
  match attempt with
  | 0%nat | 1%nat => Retry.AttemptEnv (Retry.RaisedHTTP (py "429 Too Many Requests")) false
  | _ => Retry.AttemptEnv Retry.Returned true
  end.

(** Three attempts that fail. *)
Definition always_failing (attempt : nat) : Retry.attempt_env :=
  Retry.AttemptEnv Retry.RaisedOther false.

End Demo2.

(** * Facts about the library functions *)

Module DifflibFacts.
Import Difflib.

Lemma insert_desc_perm p l : insert_desc p l ≡ₚ p :: l.
Proof.
  induction l as [|q l IH]; simpl; [done|].
  destruct (scored_leb q p); [done|].
  rewrite IH. apply Permutation_swap.
Qed.

Lemma sorted_perm l : fold_right insert_desc [] l ≡ₚ l.
Proof.
  induction l as [|p l IH]; simpl; [done|].
  by rewrite insert_desc_perm, IH.
Qed.

Lemma nlargest_length n l : (length (nlargest n l) <= n)%nat.
Proof. unfold nlargest. rewrite length_take. lia. Qed.

Lemma nlargest_elem n l p : p ∈ nlargest n l → p ∈ l.
Proof.
  unfold nlargest. intros Hp.
  rewrite <- (sorted_perm l), <- (take_drop n (fold_right insert_desc [] l)).
  apply elem_of_app. by left.
Qed.

Lemma nlargest_nil n l : (0 < n)%nat → nlargest n l = [] → l = [].
Proof.
  unfold nlargest. intros Hn Hnil.
  destruct l as [|p l]; [done|].
  assert (Hp : fold_right insert_desc [] (p :: l) ≡ₚ p :: l) by apply sorted_perm.
  destruct (fold_right insert_desc [] (p :: l)) as [|q s] eqn:E.
  - by apply Permutation_nil_cons in Hp.
  - destruct n; [lia|]. discriminate.
Qed.

Lemma get_close_matches_length word ps n cutoff :
  (length (get_close_matches word ps n cutoff) <= n)%nat.
Proof.
  unfold get_close_matches. rewrite length_map. apply nlargest_length.
Qed.

Lemma get_close_matches_elem word ps n cutoff x :
  x ∈ get_close_matches word ps n cutoff →
  x ∈ ps ∧ good_enough word cutoff x = true.
Proof.
  unfold get_close_matches. intros Hx.
  apply list_elem_of_fmap in Hx as [[r y] [-> Hy]]. simpl.
  apply nlargest_elem in Hy.
  apply list_elem_of_fmap in Hy as [z [Hz Hin]].
  injection Hz as -> ->.
  apply list_elem_of_In, filter_In in Hin as [Hin Hgood].
  split; [by apply list_elem_of_In|done].
Qed.

Lemma good_enough_ratio word cutoff x :
  good_enough word cutoff x = true → Qle_bool cutoff (ratio x word) = true.
Proof. unfold good_enough. intros H. by apply andb_true_iff in H as [_ H]. Qed.

Lemma get_close_matches_nil word ps n cutoff :
  (∀ x, x ∈ ps → Qle_bool cutoff (ratio x word) = false) →
  get_close_matches word ps n cutoff = [].
Proof.
  intros Hall. unfold get_close_matches.
  replace (List.filter (good_enough word cutoff) ps) with (@nil str); [by destruct n|].
  symmetry. induction ps as [|p ps IH]; simpl; [done|].
  assert (good_enough word cutoff p = false) as ->.
  { unfold good_enough. rewrite (Hall p) by apply list_elem_of_here.
    apply andb_false_r. }
  apply IH. intros x Hx. apply Hall. by apply list_elem_of_further.
Qed.

Lemma get_close_matches_some word ps n cutoff x :
  (0 < n)%nat → x ∈ ps → good_enough word cutoff x = true →
  get_close_matches word ps n cutoff ≠ [].
Proof.
  intros Hn Hx Hgood Hnil. unfold get_close_matches in Hnil.
  apply fmap_nil_inv, (nlargest_nil n) in Hnil; [|done].
  apply fmap_nil_inv in Hnil.
  assert (Hin : In x (List.filter (good_enough word cutoff) ps)).
  { apply filter_In. split; [by apply list_elem_of_In|done]. }
  rewrite Hnil in Hin. destruct Hin.
Qed.

Lemma scored_leb_fst p q : scored_leb p q = true → (p.1 <= q.1)%Q.
Proof.
  unfold scored_leb. destruct (Qeq_bool p.1 q.1) eqn:E.
  - intros _. apply Qeq_bool_iff in E. rewrite E. apply Qle_refl.
  - apply Qle_bool_iff.
Qed.

Lemma scored_leb_false_fst p q : scored_leb p q = false → (q.1 <= p.1)%Q.
Proof.
  unfold scored_leb. destruct (Qeq_bool p.1 q.1) eqn:E.
  - intros _. apply Qeq_bool_iff in E. rewrite E. apply Qle_refl.
  - intros H. apply Qlt_le_weak, Qnot_le_lt. intros Hle.
    apply Qle_bool_iff in Hle. congruence.
Qed.



(** *** The fuel of [matches_in] is enough *)

Local Open Scope nat_scope.

Lemma prev_len_bound alo i j2len j :
  alo <= i → (∀ j' k, j2len !! j' = Some k → k + alo <= i) →
  prev_len j2len j + alo <= i.
Proof.
  intros Hi Hall. destruct j as [|j']; simpl; [lia|].
  destruct (j2len !! j') as [k|] eqn:E; simpl; [by eapply Hall|lia].
Qed.

Lemma scan_row_inv alo i blo bhi j2len js new best :
  alo <= i →
  (∀ j k, j2len !! j = Some k → k + alo <= i) →
  rows_inv alo (S i) (new, best) →
  rows_inv alo (S i) (scan_row i blo bhi j2len js new best).
Proof.
  intros Hi Hold. revert new best.
  induction js as [|j js IH]; intros new best Hinv; simpl; [done|].
  destruct (j <? blo); [by apply IH|].
  destruct (bhi <=? j); [done|].
  pose proof (prev_len_bound alo i j2len j Hi Hold) as Hk.
  apply IH. destruct Hinv as (Ha & Hsz & Hnew). unfold rows_inv. simpl in *.
  split; [|split].
  - destruct (m_size best <? prev_len j2len j + 1); simpl; lia.
  - destruct (m_size best <? prev_len j2len j + 1); simpl; lia.
  - intros j' k. destruct (decide (j = j')) as [->|Hne].
    + rewrite lookup_insert_eq. intros [= <-]. lia.
    + rewrite lookup_insert_ne by done. apply Hnew.
Qed.

Lemma scan_rows_from_inv (a b : str) alo blo bhi len start acc :
  alo <= start →
  rows_inv alo start acc →
  rows_inv alo (start + len)
    (fold_left
       (λ (acc : gmap nat nat * Match) i,
          scan_row i blo bhi acc.1 (from_option (b2j b) [] (a !! i)) ∅ acc.2)
       (seq start len) acc).
Proof.
  revert start acc. induction len as [|len IH]; intros start acc Hstart Hinv; simpl.
  - by rewrite Nat.add_0_r.
  - replace (start + S len) with (S start + len) by lia.
    apply IH; [lia|].
    destruct Hinv as (Ha & Hsz & Hj). apply scan_row_inv; [done|done|].
    unfold rows_inv. simpl. split; [done|]. split; [lia|].
    intros j k. by rewrite lookup_empty.
Qed.

Lemma extend_left_bounds fuel (a b : str) alo blo ahi m :
  alo <= m_a m → m_a m + m_size m <= ahi →
  alo <= m_a (extend_left fuel a b alo blo m)
  ∧ m_a (extend_left fuel a b alo blo m) + m_size (extend_left fuel a b alo blo m) <= ahi
  ∧ m_size m <= m_size (extend_left fuel a b alo blo m).
Proof.
  revert m. induction fuel as [|fuel IH]; intros m Ha Hsz; simpl; [lia|].
  destruct (Nat.ltb_spec alo (m_a m)) as [Hlt|?]; simpl; [|lia].
  destruct (blo <? m_b m); simpl; [|lia].
  destruct (same_at _ _ _ _); [|lia].
  destruct (IH (mkMatch (m_a m - 1) (m_b m - 1) (m_size m + 1))) as (H1 & H2 & H3);
    simpl in *; lia.
Qed.

Lemma extend_right_bounds fuel (a b : str) ahi bhi m :
  m_a m + m_size m <= ahi →
  m_a (extend_right fuel a b ahi bhi m) = m_a m
  ∧ m_a m + m_size (extend_right fuel a b ahi bhi m) <= ahi
  ∧ m_size m <= m_size (extend_right fuel a b ahi bhi m).
Proof.
  revert m. induction fuel as [|fuel IH]; intros m Hsz; simpl; [lia|].
  destruct (Nat.ltb_spec (m_a m + m_size m) ahi) as [Hlt|?]; simpl; [|lia].
  destruct (m_b m + m_size m <? bhi); simpl; [|lia].
  destruct (same_at _ _ _ _); [|lia].
  destruct (IH (mkMatch (m_a m) (m_b m) (m_size m + 1))) as (H1 & H2 & H3);
    simpl in *; lia.
Qed.

(** The longest match of a region lies inside the region of [a]. *)
Lemma find_longest_match_bounds (a b : str) alo ahi blo bhi :
  alo <= ahi →
  alo <= m_a (find_longest_match a b alo ahi blo bhi)
  ∧ m_a (find_longest_match a b alo ahi blo bhi)
    + m_size (find_longest_match a b alo ahi blo bhi) <= ahi.
Proof.
  intros Hle. unfold find_longest_match, scan_rows.
  pose proof (scan_rows_from_inv a b alo blo bhi (ahi - alo) alo (∅, mkMatch alo blo 0)) as Hinv.
  replace (alo + (ahi - alo)) with ahi in Hinv by lia.
  destruct Hinv as (Ha & Hsz & _); [done| |].
  { unfold rows_inv. simpl. split; [done|]. split; [lia|].
    intros j k. by rewrite lookup_empty. }
  set (m0 := (fold_left _ _ _).2) in *.
  destruct (extend_left_bounds (m_a m0) a b alo blo ahi m0 Ha Hsz) as (Hl1 & Hl2 & _).
  set (m1 := extend_left _ _ _ _ _ m0) in *.
  destruct (extend_right_bounds (ahi - (m_a m1 + m_size m1)) a b ahi bhi m1 Hl2)
    as (Hr1 & Hr2 & _).
  rewrite Hr1. lia.
Qed.

(** More fuel than the region of [a] is long changes nothing. *)
Lemma matches_in_fuel (a b : str) fuel1 fuel2 alo ahi blo bhi :
  alo <= ahi → ahi - alo < fuel1 → ahi - alo < fuel2 →
  matches_in fuel1 a b alo ahi blo bhi = matches_in fuel2 a b alo ahi blo bhi.
Proof.
  revert fuel2 alo ahi blo bhi.
  induction fuel1 as [|fuel1 IH]; intros fuel2 alo ahi blo bhi Hle H1 H2; [lia|].
  destruct fuel2 as [|fuel2]; [lia|]. simpl.
  destruct (find_longest_match_bounds a b alo ahi blo bhi Hle) as [Ha Hsz].
  set (m := find_longest_match a b alo ahi blo bhi) in *.
  destruct (Nat.eqb_spec (m_size m) 0) as [?|Hk]; [done|].
  f_equal; [f_equal|].
  - destruct (alo <? m_a m); simpl; [|done].
    destruct (blo <? m_b m); [|done]. apply IH; lia.
  - destruct (Nat.ltb_spec (m_a m + m_size m) ahi) as [?|?]; simpl; [|done].
    destruct (m_b m + m_size m <? bhi); [|done]. apply IH; lia.
Qed.

Lemma matches_fuel_enough (a b : str) fuel :
  length a < fuel →
  matches_in fuel a b 0 (length a) 0 (length b) = matches a b.
Proof. intros Hfuel. unfold matches. apply matches_in_fuel; lia. Qed.

End DifflibFacts.

(** * Facts about the resolver *)

Module ResolverFacts.
Import BrandCommands Difflib DifflibFacts Commands Stages.

Lemma contains_true {V : Type} (d : gmap str V) k :
  contains d k = true ↔ is_Some (d !! k).
Proof. unfold contains. apply bool_decide_eq_true. Qed.

Lemma contains_Some {V : Type} (d : gmap str V) k v :
  d !! k = Some v → contains d k = true.
Proof. intros H. apply contains_true. by exists v. Qed.

Lemma contains_None {V : Type} (d : gmap str V) k :
  d !! k = None → contains d k = false.
Proof.
  intros H. unfold contains. apply bool_decide_eq_false.
  rewrite H. by intros [? ?].
Qed.

Lemma elem_of_keys {V : Type} (d : gmap str V) k :
  k ∈ keys d ↔ is_Some (d !! k).
Proof.
  unfold keys. rewrite list_elem_of_fmap. split.
  - intros [[k' v] [-> Hkv]]. apply elem_of_map_to_list in Hkv. by exists v.
  - intros [v Hv]. exists (k, v). split; [done|]. by apply elem_of_map_to_list.
Qed.

Lemma getitem_Some {V : Type} (d : gmap str V) k v :
  d !! k = Some v → getitem d k = Ok v.
Proof. intros H. unfold getitem. by rewrite H. Qed.

(** The last two stages, as the code runs them. *)
Lemma find_distillery_tail self name :
  (if contains (distillery_codes self) (lower name)
   then getitem (distillery_codes self) (lower name)
        ≫= λ codes, mret (Some (lower name, elements codes))
   else match get_close_matches (lower name) (keys (distillery_codes self)) 1 (3 # 5) with
        | [] => mret None
        | closest_match :: _ =>
            getitem (distillery_codes self) closest_match
            ≫= λ codes, mret (Some (closest_match, elements codes))
        end)
  = Ok (or_else (direct_stage self name) (fuzzy_stage self name)).
Proof.
  unfold direct_stage, fuzzy_stage.
  destruct (distillery_codes self !! lower name) as [S|] eqn:HS; simpl.
  - by rewrite (contains_Some _ _ _ HS), (getitem_Some _ _ _ HS).
  - rewrite (contains_None _ _ HS).
    destruct (get_close_matches _ _ _ _) as [|best rest] eqn:Hg; simpl; [done|].
    assert (Hbest : best ∈ keys (distillery_codes self)).
    { eapply get_close_matches_elem. rewrite Hg. apply list_elem_of_here. }
    apply elem_of_keys in Hbest as [S' HS'].
    by rewrite (getitem_Some _ _ _ HS'), HS'.
Qed.

(** [find_distillery] is the composition of the three stages and raises
    nothing. *)
Lemma find_distillery_stages self name :
  find_distillery self name = Ok (resolve_by_name self name).
Proof.
  unfold find_distillery, resolve_by_name, alias_stage.
  destruct (name_variants self !! lower name) as [n|] eqn:Hn; simpl.
  - rewrite (contains_Some _ _ _ Hn), (getitem_Some _ _ _ Hn). simpl.
    destruct (distillery_codes self !! lower n) as [S|] eqn:HS; simpl.
    + by rewrite (contains_Some _ _ _ HS), (getitem_Some _ _ _ HS).
    + rewrite (contains_None _ _ HS). simpl. apply find_distillery_tail.
  - rewrite (contains_None _ _ Hn). simpl. apply find_distillery_tail.
Qed.

Lemma find_distillery_by_alias self name n S :
  name_variants self !! lower name = Some n →
  distillery_codes self !! lower n = Some S →
  find_distillery self name = Ok (Some (lower n, elements S)).
Proof.
  intros Hn HS. rewrite find_distillery_stages.
  unfold resolve_by_name, alias_stage. rewrite Hn. simpl. by rewrite HS.
Qed.

Lemma find_distillery_direct self name S :
  alias_stage self name = None →
  distillery_codes self !! lower name = Some S →
  find_distillery self name = Ok (Some (lower name, elements S)).
Proof.
  intros Halias HS. rewrite find_distillery_stages.
  unfold resolve_by_name. rewrite Halias. unfold direct_stage. by rewrite HS.
Qed.

Lemma find_distillery_fuzzy self name :
  alias_stage self name = None → direct_stage self name = None →
  find_distillery self name = Ok (fuzzy_stage self name).
Proof.
  intros Halias Hdirect. rewrite find_distillery_stages.
  unfold resolve_by_name. by rewrite Halias, Hdirect.
Qed.

Lemma alias_stage_None self name :
  (∀ n, name_variants self !! lower name = Some n →
        distillery_codes self !! lower n = None) →
  alias_stage self name = None.
Proof.
  intros H. unfold alias_stage.
  destruct (name_variants self !! lower name) as [n|] eqn:Hn; simpl; [|done].
  by rewrite (H n).
Qed.

Lemma direct_stage_None self name :
  distillery_codes self !! lower name = None → direct_stage self name = None.
Proof. intros H. unfold direct_stage. by rewrite H. Qed.

(** What a stage returns is a key of the index with the codes under it. *)
Lemma resolve_by_name_in_index self name n cs :
  resolve_by_name self name = Some (n, cs) →
  ∃ S, distillery_codes self !! n = Some S ∧ cs = elements S.
Proof.
  unfold resolve_by_name, or_else, alias_stage, direct_stage, fuzzy_stage.
  intros H.
  repeat match type of H with
  | context [match ?x ≫= ?f with _ => _ end] => destruct (x ≫= f) eqn:?; simplify_eq
  end;
  repeat match goal with
  | E : ?x ≫= _ = Some _ |- _ => apply bind_Some in E as (? & ? & ?)
  | E : Some _ = Some _ |- _ => injection E as <- <-
  end; eauto.
Qed.

(** No spelling of the table is claimed by two main names. *)
Lemma variants_unambiguous_table :
  variants_unambiguous (initialize_name_variants ∅) = true.
Proof. vm_compute. reflexivity. Qed.

Lemma variants_unambiguous_spec nv main aliases v :
  variants_unambiguous nv = true →
  (main, aliases) ∈ variants → v ∈ main :: aliases →
  nv !! lower v = Some main.
Proof.
  unfold variants_unambiguous. generalize variants. intros table Htable Hentry Hv.
  rewrite forallb_forall in Htable.
  apply list_elem_of_In, Htable in Hentry. cbn beta in Hentry.
  rewrite forallb_forall in Hentry.
  apply list_elem_of_In, Hentry in Hv. by apply bool_decide_eq_true in Hv.
Qed.

End ResolverFacts.

(** * Facts about the loader *)

Module LoaderFacts.
Import BrandCommands.

Lemma has_required_keys_true b :
  has_required_keys b = true ↔
  ∃ name codes i, brand_name b = Some name ∧ brand_codes b = Some codes ∧ brand_id b = Some i.
Proof.
  unfold has_required_keys. rewrite !andb_true_iff, !bool_decide_eq_true. split.
  - intros [[[name ?] [codes ?]] [i ?]]. by exists name, codes, i.
  - intros (name & codes & i & -> & -> & ->). eauto.
Qed.

(** One record: the index gains the id under the lower-cased name. *)
Lemma load_brand_Ok st b st' :
  load_brand st b = Ok st' →
  ∃ name codes i,
    brand_name b = Some name ∧ brand_codes b = Some codes ∧ brand_id b = Some i ∧
    st'.2 = <[lower name := default ∅ (st.2 !! lower name) ∪ {[py_str i]}]> (st.2).
Proof.
  destruct st as [brands dc]. unfold load_brand.
  destruct (brand_name b) as [name|]; simpl; [|done].
  destruct (brand_codes b) as [codes|]; simpl; [|done].
  destruct (brand_id b) as [i|]; simpl; [|done].
  intros [= <-]. exists name, codes, i. repeat split; simpl.
  destruct (dc !! lower name) as [S|] eqn:HS; simpl.
  - by rewrite HS.
  - by rewrite lookup_insert_eq, insert_insert_eq.
Qed.

Lemma load_brand_total st b :
  has_required_keys b = true → ∃ st', load_brand st b = Ok st'.
Proof.
  intros (name & codes & i & Hn & Hc & Hi)%has_required_keys_true.
  destruct st as [brands dc]. unfold load_brand. rewrite Hn, Hc, Hi. simpl. eauto.
Qed.

Lemma load_brand_Raise st b :
  has_required_keys b = false → ∃ e, load_brand st b = Raise e.
Proof.
  intros Hb. destruct (load_brand st b) as [st'|e] eqn:E; [|eauto].
  apply load_brand_Ok in E as (name & codes & i & Hn & Hc & Hi & _).
  assert (has_required_keys b = true) by (apply has_required_keys_true; by exists name, codes, i).
  congruence.
Qed.

Lemma load_brands_from_total data st :
  forallb has_required_keys data = true → ∃ st', load_brands_from data st = Ok st'.
Proof.
  revert st. induction data as [|b data IH]; intros st Hall; simpl; [eauto|].
  simpl in Hall. apply andb_true_iff in Hall as [Hb Hall].
  destruct (load_brand_total st b Hb) as [st1 ->]. simpl. by apply IH.
Qed.

Lemma load_brands_from_Raise data st b :
  b ∈ data → has_required_keys b = false → ∃ e, load_brands_from data st = Raise e.
Proof.
  revert st. induction data as [|b0 data IH]; intros st Hin Hb.
  - by apply elem_of_nil in Hin.
  - simpl. destruct (load_brand st b0) as [st1|e] eqn:E; simpl; [|eauto].
    apply elem_of_cons in Hin as [->|Hin]; [|by apply IH].
    destruct (load_brand_Raise st b0 Hb) as [e He]. congruence.
Qed.

Lemma load_brands_from_index all data st st' :
  (∀ b, b ∈ data → b ∈ all) →
  load_brands_from data st = Ok st' →
  index_from all (st.2) → index_from all (st'.2).
Proof.
  revert st. induction data as [|b data IH]; intros st Hsub Hload Hinv; simpl in Hload.
  - by injection Hload as <-.
  - destruct (load_brand st b) as [st1|e] eqn:E; simpl in Hload; [|done].
    apply (IH st1); [|done|].
    { intros b' Hb'. apply Hsub. by apply list_elem_of_further. }
    apply load_brand_Ok in E as (name & codes & i & Hn & _ & _ & ->).
    intros n S HS. destruct (decide (lower name = n)) as [<-|Hne].
    + rewrite lookup_insert_eq in HS. injection HS as <-. split.
      * intros Hempty.
        assert (py_str i ∈ (∅ : gset str)) as Habs; [|by apply not_elem_of_empty in Habs].
        rewrite <- Hempty. apply elem_of_union_r. by apply elem_of_singleton.
      * exists b, name. split; [|done]. apply Hsub, list_elem_of_here.
    + rewrite lookup_insert_ne in HS by done. by apply Hinv.
Qed.

Lemma init_index data self :
  init data = Ok self → index_from data (distillery_codes self).
Proof.
  unfold init, load_brands.
  destruct (load_brands_from data (∅, ∅)) as [[brands dc]|e] eqn:E; simpl; [|done].
  intros [= <-]. simpl.
  apply (load_brands_from_index data data (∅, ∅) (brands, dc)); [done|done|].
  intros n S HS. simpl in HS. by rewrite lookup_empty in HS.
Qed.

Lemma init_name_variants data self :
  init data = Ok self → name_variants self = initialize_name_variants ∅.
Proof.
  unfold init. destruct (load_brands data) as [[brands dc]|e]; simpl; [|done].
  by intros [= <-].
Qed.

Lemma init_total data :
  forallb has_required_keys data = true → ∃ self, init data = Ok self.
Proof.
  intros Hall. unfold init, load_brands.
  destruct (load_brands_from_total data (∅, ∅) Hall) as [[brands dc] ->]. simpl. eauto.
Qed.

Lemma init_required_keys data self b :
  init data = Ok self → b ∈ data → has_required_keys b = true.
Proof.
  intros Hinit Hb. destruct (has_required_keys b) eqn:E; [done|].
  destruct (load_brands_from_Raise data (∅, ∅) b Hb E) as [e He].
  unfold init, load_brands in Hinit. by rewrite He in Hinit.
Qed.

Lemma cog_of_init data :
  forallb has_required_keys data = true → init data = Ok (Demo.cog_of data).
Proof.
  intros Hall. destruct (init_total data Hall) as [self Hself].
  unfold Demo.cog_of. by rewrite Hself.
Qed.

End LoaderFacts.

(** * Checks on concrete inputs *)

Example lower_ex : lower (py "Leven") = py "leven".
Proof. reflexivity. Qed.

Example upper_ex : upper (strip (py "  g1 ")) = py "G1".
Proof. reflexivity. Qed.

Example str_of_int_ex : str_of_int 23 = py "23" /\ str_of_int 0 = py "0" /\ str_of_int (-5) = py "-5".
Proof. repeat split; reflexivity. Qed.

Example variants_size : length BrandCommands.variants = 47%nat.
Proof. reflexivity. Qed.

Example name_variants_leven :
  BrandCommands.initialize_name_variants ∅ !! py "leven" = Some (py "inverleven").
Proof. vm_compute. reflexivity. Qed.

Example ratio_prak : Difflib.ratio (py "highland park") (py "highland prak") = (24 # 26)%Q.
Proof. vm_compute. reflexivity. Qed.

Example ratio_abcd : Difflib.ratio (py "abcd") (py "bcde") = (6 # 8)%Q.
Proof. vm_compute. reflexivity. Qed.

Example gcm_ex :
  Difflib.get_close_matches (py "appel") [py "ape"; py "apple"; py "peach"; py "puppy"] 3 (3 # 5)
  = [py "apple"; py "ape"].
Proof. vm_compute. reflexivity. Qed.


Example smws_glenfarclas :
  Commands.smws
    [Brand (Some (JStr (py "23"))) (Some (py "Glenfarclas")) (Some [JStr (py "23")])
           (Some (py "Speyside")) None None] (py "23")
  = SendEmbed (Embed (py "SMWS Code 23") (py "Glenfarclas")
                     [Field (py "Region") (py "Speyside") true]).
Proof. vm_compute. reflexivity. Qed.

Example distillery_unrelated :
  Commands.distillery (Demo.cog_of Demo.park_data) (py "Zzzzqqqxx")
  = NoCodesFound (py "Zzzzqqqxx").
Proof. vm_compute. reflexivity. Qed.

(** * The resolver: statements of the specification *)

Section Resolver.
Import BrandCommands Difflib DifflibFacts Commands Stages ResolverFacts LoaderFacts Demo.

(** C3. [find_distillery] is a pipeline of three stages, alias, direct and
    fuzzy, in which a stage runs only when every earlier one gave nothing;
    a name whose alias leads to a name of the index gets the answer of the
    alias stage, whatever the fuzzy stage would have found. *)
Theorem find_distillery_three_stages (self : cog) (name : str) :
  find_distillery self name = Ok (resolve_by_name self name)
  ∧ (∀ n S, name_variants self !! lower name = Some n →
            distillery_codes self !! lower n = Some S →
            find_distillery self name = Ok (Some (lower n, elements S)))
  ∧ (∀ S, alias_stage self name = None →
          distillery_codes self !! lower name = Some S →
          find_distillery self name = Ok (Some (lower name, elements S)))
  ∧ (alias_stage self name = None → direct_stage self name = None →
     find_distillery self name = Ok (fuzzy_stage self name)).
Proof.
  repeat apply conj.
  - apply find_distillery_stages.
  - intros n S. apply find_distillery_by_alias.
  - intros S. apply find_distillery_direct.
  - apply find_distillery_fuzzy.
Qed.

Lemma find_distillery_three_stages_witness :
  fuzzy_stage (cog_of leven_data) (py "Leven") = Some (py "levens", [py "5"])
  ∧ find_distillery (cog_of leven_data) (py "Leven")
    = Ok (Some (py "inverleven", [py "77"])).
Proof.
  split; [vm_compute; reflexivity|].
  pose proof (proj1 (proj2 (find_distillery_three_stages (cog_of leven_data) (py "Leven")))
                (py "inverleven") {[py "77"]}) as H.
  assert (H1 : name_variants (cog_of leven_data) !! lower (py "Leven") = Some (py "inverleven"))
    by (vm_compute; reflexivity).
  assert (H2 : distillery_codes (cog_of leven_data) !! lower (py "inverleven")
               = Some {[py "77"]}) by (vm_compute; reflexivity).
  specialize (H H1 H2). rewrite H. vm_compute. reflexivity.
Defined.

(** C4. An input that is a spelling registered for the main name [main]
    (in any letter case) resolves to the lower-cased [main] with the codes
    of the index, provided the index has that name; the main name itself
    resolves to the same result. *)
Theorem alias_resolves_like_canonical (data : list brand) (self : cog)
    (main : str) (aliases : list str) (alias input : str) (S : gset str) :
  init data = Ok self →
  (main, aliases) ∈ variants →
  alias ∈ aliases →
  lower input = lower alias →
  distillery_codes self !! lower main = Some S →
  find_distillery self input = Ok (Some (lower main, elements S))
  ∧ find_distillery self main = find_distillery self input.
Proof.
  intros Hinit Hentry Halias Hinput HS.
  pose proof variants_unambiguous_table as Htable.
  rewrite <- (init_name_variants data self Hinit) in Htable.
  assert (Hmain : name_variants self !! lower main = Some main).
  { eapply variants_unambiguous_spec; [done|done|apply list_elem_of_here]. }
  assert (Hvs : name_variants self !! lower alias = Some main).
  { eapply variants_unambiguous_spec; [done|done|by apply list_elem_of_further]. }
  rewrite <- Hinput in Hvs.
  by rewrite (find_distillery_by_alias self input main S Hvs HS),
             (find_distillery_by_alias self main main S Hmain HS).
Qed.

Lemma alias_resolves_like_canonical_witness :
  find_distillery (cog_of leven_data) (py "Leven") = Ok (Some (py "inverleven", [py "77"]))
  ∧ find_distillery (cog_of leven_data) (py "inverleven")
    = find_distillery (cog_of leven_data) (py "Leven").
Proof.
  pose proof (alias_resolves_like_canonical leven_data (cog_of leven_data)
                (py "inverleven") [py "leven"; py "inver"] (py "leven") (py "Leven")
                {[py "77"]}) as H.
  assert (H1 : init leven_data = Ok (cog_of leven_data))
    by (apply cog_of_init; vm_compute; reflexivity).
  assert (H2 : (py "inverleven", [py "leven"; py "inver"]) ∈ variants)
    by apply list_elem_of_here.
  assert (H3 : py "leven" ∈ [py "leven"; py "inver"]) by apply list_elem_of_here.
  assert (H4 : lower (py "Leven") = lower (py "leven")) by reflexivity.
  assert (H5 : distillery_codes (cog_of leven_data) !! lower (py "inverleven")
               = Some {[py "77"]}) by (vm_compute; reflexivity).
  destruct (H H1 H2 H3 H4 H5) as [Ha Hb]. split; [|exact Hb].
  rewrite Ha. vm_compute. reflexivity.
Defined.

(** C10. Whatever name [find_distillery] returns is a key of the index,
    the lower-cased name of a record of the dataset, and the codes returned
    are those stored under that key, at least one. *)
Theorem find_distillery_points_into_index (data : list brand) (self : cog)
    (name n : str) (cs : list str) :
  init data = Ok self →
  find_distillery self name = Ok (Some (n, cs)) →
  ∃ S, distillery_codes self !! n = Some S
       ∧ cs = elements S
       ∧ cs ≠ []
       ∧ ∃ b full_name, b ∈ data ∧ brand_name b = Some full_name ∧ n = lower full_name.
Proof.
  intros Hinit Hfind. rewrite find_distillery_stages in Hfind.
  injection Hfind as Hfind.
  apply resolve_by_name_in_index in Hfind as (S & HS & ->).
  destruct (init_index data self Hinit n S HS) as [Hne Hfrom].
  exists S. repeat split; [done| |done].
  intros Hnil. by apply elements_empty_inv, leibniz_equiv in Hnil.
Qed.

Lemma find_distillery_points_into_index_witness :
  ∃ S, distillery_codes (cog_of park_data) !! py "highland park" = Some S
       ∧ [py "4"] = elements S
       ∧ [py "4"] ≠ []
       ∧ ∃ b full_name, b ∈ park_data ∧ brand_name b = Some full_name
                        ∧ py "highland park" = lower full_name.
Proof.
  apply (find_distillery_points_into_index park_data (cog_of park_data) (py "Highland Prak")).
  - apply cog_of_init. vm_compute. reflexivity.
  - vm_compute. reflexivity.
Defined.

(** C9. A name that no stage matches makes [find_distillery] return
    nothing, without an exception; the [distillery] command then offers at
    most three names of the index, each at a ratio of at least 0.5. *)
Theorem unmatched_name_is_absent (self : cog) (name : str) :
  (∀ n, name_variants self !! lower name = Some n →
        distillery_codes self !! lower n = None) →
  distillery_codes self !! lower name = None →
  (∀ k, k ∈ keys (distillery_codes self) →
        Qle_bool (3 # 5) (ratio k (lower name)) = false) →
  find_distillery self name = Ok None
  ∧ ∃ suggestions,
      suggestions = get_close_matches (lower name) (keys (distillery_codes self)) 3 (1 # 2)
      ∧ distillery self name
        = (if falsy suggestions then NoCodesFound name else DidYouMean name suggestions)
      ∧ (length suggestions <= 3)%nat
      ∧ ∀ s, s ∈ suggestions →
             s ∈ keys (distillery_codes self)
             ∧ Qle_bool (1 # 2) (ratio s (lower name)) = true.
Proof.
  intros Halias Hdirect Hfuzzy.
  assert (Hfind : find_distillery self name = Ok None).
  { rewrite find_distillery_fuzzy.
    - unfold fuzzy_stage. by rewrite get_close_matches_nil.
    - by apply alias_stage_None.
    - by apply direct_stage_None. }
  split; [done|]. eexists. split; [reflexivity|].
  unfold distillery. rewrite Hfind. unfold suggest. split; [done|].
  split; [apply get_close_matches_length|].
  intros s Hs. apply get_close_matches_elem in Hs as [Hin Hgood].
  split; [done|]. by apply good_enough_ratio.
Qed.

Lemma unmatched_name_is_absent_witness :
  find_distillery (cog_of leven_data) (py "Levxyz") = Ok None
  ∧ distillery (cog_of leven_data) (py "Levxyz") = DidYouMean (py "Levxyz") [py "levens"].
Proof.
  assert (Hn : name_variants (cog_of leven_data) !! lower (py "Levxyz") = None)
    by (vm_compute; reflexivity).
  assert (Hkeys : keys (distillery_codes (cog_of leven_data))
                  = [py "levens"; py "inverleven"]) by (vm_compute; reflexivity).
  destruct (unmatched_name_is_absent (cog_of leven_data) (py "Levxyz"))
    as [Hfind (suggestions & Hs & Hreply & _)].
  - intros n Hn'. rewrite Hn in Hn'. discriminate Hn'.
  - vm_compute. reflexivity.
  - intros k Hk. rewrite Hkeys in Hk.
    apply elem_of_cons in Hk as [->|Hk]; [vm_compute; reflexivity|].
    apply list_elem_of_singleton in Hk as ->. vm_compute. reflexivity.
  - split; [exact Hfind|]. rewrite Hreply, Hs. vm_compute. reflexivity.
Defined.




End Resolver.

(** * The loader and the presenter: statements of the specification *)

Section Presenter.
Import BrandCommands Commands LoaderFacts Demo.

Local Open Scope nat_scope.

Lemma find_by_id_find data lookup_code :
  (∀ b, b ∈ data → is_Some (brand_id b)) →
  find_by_id data lookup_code
  = Ok (List.find (λ b, bool_decide (id_key b = Some lookup_code)) data).
Proof.
  induction data as [|b data IH]; intros Hids; simpl; [done|].
  destruct (Hids b (list_elem_of_here _ _)) as [i Hi].
  assert (Hkey : id_key b = Some (upper (py_str i))) by (unfold id_key; by rewrite Hi).
  rewrite Hi. simpl.
  destruct (decide (upper (py_str i) = lookup_code)) as [Heq|Hne].
  - rewrite bool_decide_eq_true_2 by done.
    rewrite bool_decide_eq_true_2; [done|]. by rewrite Hkey, Heq.
  - rewrite bool_decide_eq_false_2 by done.
    rewrite bool_decide_eq_false_2; [|rewrite Hkey; by intros [= ?]].
    apply IH. intros b' Hb'. apply Hids. by apply list_elem_of_further.
Qed.






Lemma other_codes_elem codes lookup_code s :
  s ∈ other_codes codes lookup_code ↔
  ∃ c, c ∈ codes ∧ s = py_str c ∧ upper (py_str c) ≠ lookup_code.
Proof.
  unfold other_codes. rewrite list_elem_of_fmap. split.
  - intros (c & -> & Hc). apply list_elem_of_In, filter_In in Hc as [Hin Hneq].
    exists c. split; [by apply list_elem_of_In|]. split; [done|].
    by apply negb_true_iff, bool_decide_eq_false in Hneq.
  - intros (c & Hin & -> & Hneq). exists c. split; [done|].
    apply list_elem_of_In, filter_In. split; [by apply list_elem_of_In|].
    by apply negb_true_iff, bool_decide_eq_false.
Qed.

Lemma other_codes_sublist codes lookup_code :
  other_codes codes lookup_code `sublist_of` (py_str <$> codes).
Proof.
  unfold other_codes. induction codes as [|c codes IH]; simpl; [done|].
  destruct (negb _); simpl.
  - by apply sublist_skip.
  - by apply sublist_cons.
Qed.

(** C7, as the code has it.  The field of the other codes lists the codes
    of the record, in the order of the dataset, without those equal to the
    looked-up code when upper-cased, and shows at most 25 of them. *)
Theorem other_codes_in_dataset_order (b : brand) (codes : list scalar) (lookup_code : str) :
  brand_codes b = Some codes →
  let shown := take 25 (other_codes codes lookup_code) in
  length shown <= 25
  ∧ shown `sublist_of` (py_str <$> codes)
  ∧ (∀ s, s ∈ shown → upper s ≠ lookup_code)
  ∧ (∀ c, c ∈ codes → upper (py_str c) ≠ lookup_code →
          py_str c ∈ other_codes codes lookup_code)
  ∧ (other_codes codes lookup_code ≠ [] →
     Field (py "Other SMWS Codes") (join (py ", ") shown) false ∈ smws_fields b lookup_code).
Proof.
  intros Hcodes shown. repeat apply conj.
  - unfold shown. rewrite length_take. lia.
  - etrans; [apply sublist_take|apply other_codes_sublist].
  - intros s Hs.
    assert (Hin : s ∈ other_codes codes lookup_code).
    { unfold shown in Hs. rewrite <- (take_drop 25 (other_codes codes lookup_code)).
      apply elem_of_app. by left. }
    by apply other_codes_elem in Hin as (c & _ & -> & Hneq).
  - intros c Hc Hneq. apply other_codes_elem. by exists c.
  - intros Hne. unfold smws_fields. rewrite Hcodes.
    rewrite !elem_of_app. right. right. right.
    destruct (other_codes codes lookup_code); [done|]. apply list_elem_of_here.
Qed.

Lemma other_codes_in_dataset_order_witness :
  Field (py "Other SMWS Codes") (py "G3, G2") false
    ∈ smws_fields glen_one (py "G1").
Proof.
  destruct (other_codes_in_dataset_order
              glen_one
              [JStr (py "G1"); JStr (py "G3"); JStr (py "G2")] (py "G1"))
    as (_ & _ & _ & _ & Hfield).
  - reflexivity.
  - apply Hfield. vm_compute. discriminate.
Defined.

(** C7, a counterexample.  A record whose codes are G1, G3, G2 in the
    dataset, looked up as "g1", shows "G3, G2", which is not in ascending
    order. *)
Lemma other_codes_not_sorted :
  smws [glen_one] (py "g1")
  = SendEmbed (Embed (py "SMWS Code g1") (py "Glen One")
                     [Field (py "Other SMWS Codes") (py "G3, G2") false])
  ∧ other_codes [JStr (py "G1"); JStr (py "G3"); JStr (py "G2")] (upper (strip (py "g1")))
    = [py "G3"; py "G2"]
  ∧ ¬ ascending [py "G3"; py "G2"].
Proof.
  repeat apply conj; [vm_compute; reflexivity|vm_compute; reflexivity|].
  intros Hsorted. apply Sorted_inv in Hsorted as [_ Hhd].
  apply HdRel_inv in Hhd. vm_compute in Hhd. discriminate Hhd.
Qed.



Lemma find_first {A : Type} (f : A → bool) (l : list A) (x : A) :
  List.find f l = Some x →
  ∃ pre post, l = pre ++ x :: post ∧ f x = true ∧ ∀ y, y ∈ pre → f y = false.
Proof.
  induction l as [|z l IH]; simpl; [done|].
  destruct (f z) eqn:Hz.
  - intros [= ->]. exists [], l. repeat apply conj; [done|done|].
    by intros y Hy%elem_of_nil.
  - intros Hfind. destruct (IH Hfind) as (pre & post & -> & Hx & Hpre).
    exists (z :: pre), post. repeat apply conj; [done|done|].
    intros y [->|Hy]%elem_of_cons; [done|by apply Hpre].
Qed.

(** C1, as the code has it.  In a dataset that loads, that is one in which
    every record has a name, codes and an id: looked up by the id of a
    record, trimmed and in any letter case, [smws] finds the first record of
    the dataset whose id is equal when upper-cased (no record before it has
    such an id), that record itself when no other record has such an id, and
    presents it; looked up by anything that is not the id of a record, it
    finds nothing. *)
Theorem smws_resolves_primary_ids (data : list brand) (self : cog) (code : str) :
  init data = Ok self →
  (∀ b i,
     b ∈ data → brand_id b = Some i → upper (strip code) = upper (py_str i) →
     ∃ b' name pre post,
       data = pre ++ b' :: post
       ∧ (∀ r, r ∈ pre → id_key r ≠ Some (upper (strip code)))
       ∧ find_by_id data (upper (strip code)) = Ok (Some b')
       ∧ b' ∈ data
       ∧ id_key b' = Some (upper (strip code))
       ∧ brand_name b' = Some name
       ∧ smws data code
         = (if (6000 <? N.of_nat (embed_len (smws_embed b' name code (upper (strip code)))))%N
            then SendText too_large true
            else SendEmbed (smws_embed b' name code (upper (strip code))))
       ∧ ((∀ b2, b2 ∈ data → id_key b2 = id_key b → b2 = b) → b' = b))
  ∧ ((∀ b, b ∈ data → id_key b ≠ Some (upper (strip code))) →
     find_by_id data (upper (strip code)) = Ok None
     ∧ smws data code = SendText (py "No distillery found with ID " ++ code) true).
Proof.
  intros Hinit.
  assert (Hkeys : ∀ r, r ∈ data →
            ∃ name codes j, brand_name r = Some name ∧ brand_codes r = Some codes
                            ∧ brand_id r = Some j).
  { intros r Hr. by apply has_required_keys_true, (init_required_keys data self). }
  assert (Hfind : find_by_id data (upper (strip code))
                  = Ok (List.find (λ r, bool_decide (id_key r = Some (upper (strip code)))) data)).
  { apply find_by_id_find. intros r Hr.
    destruct (Hkeys r Hr) as (_ & _ & j & _ & _ & ->). by exists j. }
  split.
  - intros b i Hb Hi Hcode.
    assert (Hbkey : id_key b = Some (upper (strip code))).
    { unfold id_key. rewrite Hi. simpl. by rewrite Hcode. }
    destruct (List.find _ data) as [b'|] eqn:E.
    + destruct (find_first _ _ _ E) as (pre & post & Hsplit & Hkey & Hpre).
      apply bool_decide_eq_true in Hkey.
      assert (Hin : b' ∈ data).
      { rewrite Hsplit. apply elem_of_app. right. apply list_elem_of_here. }
      destruct (Hkeys b' Hin) as (name & _ & _ & Hname & _ & _).
      exists b', name, pre, post. repeat apply conj; try done.
      * intros r Hr. exact (proj1 (bool_decide_eq_false _) (Hpre r Hr)).
      * unfold smws. rewrite Hfind. simpl. rewrite Hname. simpl.
        by destruct (_ <? _)%N.
      * intros Huniq. apply Huniq; [done|]. by rewrite Hkey, Hbkey.
    + exfalso. pose proof (find_none _ _ E b (proj1 (list_elem_of_In _ _) Hb)) as Hnone.
      apply bool_decide_eq_false in Hnone. by apply Hnone.
  - intros Hnone.
    destruct (List.find _ data) as [b'|] eqn:E.
    + apply find_some in E as [Hin Hkey]. apply bool_decide_eq_true in Hkey.
      by apply list_elem_of_In, Hnone in Hin.
    + split; [done|]. unfold smws. by rewrite Hfind.
Qed.

Lemma smws_resolves_primary_ids_witness :
  find_by_id [glen_one] (upper (strip (py " g1 "))) = Ok (Some glen_one).
Proof.
  assert (Hinit : init [glen_one] = Ok (cog_of [glen_one]))
    by (apply cog_of_init; vm_compute; reflexivity).
  destruct (proj1 (smws_resolves_primary_ids [glen_one] (cog_of [glen_one]) (py " g1 ") Hinit)
              glen_one (JStr (py "G1")))
    as (b' & name & pre & post & _ & _ & Hfind & _ & _ & _ & _ & Huniq).
  - apply list_elem_of_here.
  - reflexivity.
  - vm_compute. reflexivity.
  - rewrite Hfind. f_equal. f_equal. apply Huniq.
    intros b2 Hb2 _. by apply list_elem_of_singleton in Hb2.
Defined.

(** C1, a counterexample.  "G3" is a code of the record with id "G1", and
    [load_brands] files the record under it, yet [smws] finds nothing. *)
Lemma smws_misses_secondary_codes :
  brand_codes glen_one
  = Some [JStr (py "G1"); JStr (py "G3"); JStr (py "G2")]
  ∧ info_name <$> brands (cog_of [glen_one]) !! py "G3" = Some (py "Glen One")
  ∧ find_by_id [glen_one] (upper (strip (py "G3"))) = Ok None
  ∧ smws [glen_one] (py "G3") = SendText (py "No distillery found with ID G3") true.
Proof. repeat apply conj; vm_compute; reflexivity. Qed.

(** C5, as the code has it.  A dataset in which every record has a name,
    codes and an id loads; one record without one of them makes the whole
    load raise, so that no cog exists and the extension is reported as
    failed; the empty collection loads, with empty indices. *)
Theorem load_is_all_or_nothing (data : list brand) :
  (forallb has_required_keys data = true →
   ∃ self, init data = Ok self ∧ setup_hook data = ExtensionLoaded self)
  ∧ (∀ b, b ∈ data → has_required_keys b = false →
          ∃ e, load_brands data = Raise e
               ∧ init data = Raise e
               ∧ setup_hook data = ExtensionFailed e)
  ∧ (∃ self, setup_hook [] = ExtensionLoaded self
             ∧ brands self = ∅ ∧ distillery_codes self = ∅).
Proof.
  repeat apply conj.
  - intros Hall. destruct (init_total data Hall) as [self Hself].
    exists self. split; [done|]. unfold setup_hook. by rewrite Hself.
  - intros b Hb Hkeys.
    destruct (load_brands_from_Raise data (∅, ∅) b Hb Hkeys) as [e He].
    exists e. unfold setup_hook, init, load_brands. by rewrite He.
  - by eexists.
Qed.

Lemma load_is_all_or_nothing_witness :
  ∃ e, load_brands broken_data = Raise e
       ∧ init broken_data = Raise e
       ∧ setup_hook broken_data = ExtensionFailed e.
Proof.
  apply (proj1 (proj2 (load_is_all_or_nothing broken_data))
               (Brand (Some (JNum 24)) None (Some [JNum 24]) None None None)).
  - apply list_elem_of_further, list_elem_of_here.
  - reflexivity.
Defined.

(** C5, a counterexample.  The second record has no name: the load raises
    [KeyError], the first, valid record is not kept, and the extension
    fails; the same dataset without the second record loads, and so does
    the empty one. *)
Lemma invalid_record_aborts_the_load :
  load_brands broken_data = Raise (KeyError (py "name"))
  ∧ setup_hook broken_data = ExtensionFailed (KeyError (py "name"))
  ∧ distillery_codes (cog_of [record (JNum 23) "Glenfarclas" [JNum 23]]) !! py "glenfarclas"
    = Some {[py "23"]}
  ∧ load_brands [] = Ok (∅, ∅).
Proof. repeat apply conj; vm_compute; reflexivity. Qed.

End Presenter.

(** * More about the loader *)

Module IndexFacts.
Import BrandCommands Commands LoaderFacts.

Lemma store_codes_lookup b info codes brands s :
  info = info_of b →
  fold_left (store_code b info) codes brands !! s
  = if bool_decide (s ∈ py_str <$> codes) then Some info else brands !! s.
Proof.
  intros Hinfo. revert brands. induction codes as [|c codes IH]; intros brands.
  - done.
  - cbn [fold_left]. rewrite IH, fmap_cons.
    assert (Hentry : store_code b info brands c = <[py_str c := info]> brands).
    { unfold store_code. destruct (brand_id b) as [i|]; [|done].
      destruct (bool_decide (py_str i = py_str c)); [|done]. by rewrite Hinfo. }
    rewrite Hentry.
    destruct (decide (s ∈ py_str <$> codes)) as [Hin|Hnin].
    + rewrite !bool_decide_eq_true_2; [done| |done]. by apply list_elem_of_further.
    + rewrite (bool_decide_eq_false_2 _ Hnin).
      destruct (decide (py_str c = s)) as [<-|Hne].
      * rewrite lookup_insert_eq. rewrite bool_decide_eq_true_2; [done|apply list_elem_of_here].
      * rewrite lookup_insert_ne by done.
        rewrite bool_decide_eq_false_2; [done|].
        intros [?|?]%elem_of_cons; congruence.
Qed.

Lemma load_brand_brands st b st' s :
  load_brand st b = Ok st' →
  st'.1 !! s = if lists_code s b then Some (info_of b) else st.1 !! s.
Proof.
  destruct st as [brands dc]. unfold load_brand, lists_code, info_of.
  destruct (brand_name b) as [name|] eqn:Hn; simpl; [|done].
  destruct (brand_codes b) as [codes|] eqn:Hc; simpl; [|done].
  destruct (brand_id b) as [i|] eqn:Hi; simpl; [|done].
  intros [= <-]. simpl. apply store_codes_lookup.
  unfold info_of. by rewrite Hn.
Qed.

Lemma find_in_app {A : Type} (f : A → bool) (l1 l2 : list A) :
  List.find f (l1 ++ l2)
  = match List.find f l1 with
    | Some x => Some x
    | None => List.find f l2
    end.
Proof.
  induction l1 as [|x l1 IH]; simpl; [done|]. by destruct (f x).
Qed.

Lemma load_brands_from_brands data st st' s :
  load_brands_from data st = Ok st' →
  st'.1 !! s = match List.find (lists_code s) (rev data) with
               | Some b => Some (info_of b)
               | None => st.1 !! s
               end.
Proof.
  revert st. induction data as [|b data IH]; intros st Hload; simpl in Hload.
  - by injection Hload as <-.
  - destruct (load_brand st b) as [st1|e] eqn:E; simpl in Hload; [|done].
    rewrite (IH st1 Hload). simpl. rewrite find_in_app.
    destruct (List.find (lists_code s) (rev data)); [done|].
    rewrite (load_brand_brands st b st1 s E). simpl. by destruct (lists_code s b).
Qed.

Lemma insert_code_elem (m : gmap str (gset str)) k x n c :
  (∃ S, <[k := default ∅ (m !! k) ∪ {[x]}]> m !! n = Some S ∧ c ∈ S)
  ↔ (∃ S, m !! n = Some S ∧ c ∈ S) ∨ (n = k ∧ c = x).
Proof.
  destruct (decide (k = n)) as [->|Hne].
  - rewrite lookup_insert_eq. split.
    + intros (S & [= <-] & Hc). apply elem_of_union in Hc as [Hc|Hc].
      * left. destruct (m !! n) as [S|]; simpl in Hc; [by exists S|].
        by apply not_elem_of_empty in Hc.
      * right. by apply elem_of_singleton in Hc.
    + intros [(S & HS & Hc)|[_ ->]]; eexists; (split; [done|]).
      * rewrite HS. simpl. by apply elem_of_union_l.
      * apply elem_of_union_r. by apply elem_of_singleton.
  - rewrite lookup_insert_ne by done. split; [by left|].
    intros [?|[? _]]; [done|congruence].
Qed.

Lemma load_brands_from_ids data st st' n c :
  load_brands_from data st = Ok st' →
  (∃ S, st'.2 !! n = Some S ∧ c ∈ S)
  ↔ (∃ S, st.2 !! n = Some S ∧ c ∈ S)
    ∨ ∃ b name i, b ∈ data ∧ brand_name b = Some name ∧ lower name = n
                  ∧ brand_id b = Some i ∧ c = py_str i.
Proof.
  revert st. induction data as [|b data IH]; intros st Hload; simpl in Hload.
  - injection Hload as <-. split; [by left|].
    intros [?|(b & ? & ? & Hb & _)]; [done|]. by apply elem_of_nil in Hb.
  - destruct (load_brand st b) as [st1|e] eqn:E; simpl in Hload; [|done].
    rewrite (IH st1 Hload).
    apply load_brand_Ok in E as (name & codes & i & Hn & _ & Hi & ->).
    rewrite insert_code_elem. split.
    + intros [[?|[-> ->]]|(b' & name' & i' & Hb' & ?)].
      * by left.
      * right. exists b, name, i. split; [apply list_elem_of_here|done].
      * right. exists b', name', i'. split; [by apply list_elem_of_further|done].
    + intros [?|(b' & name' & i' & Hb' & Hn' & Hl & Hi' & ->)]; [by left; left|].
      apply elem_of_cons in Hb' as [->|Hb'].
      * left. right. split; congruence.
      * right. by exists b', name', i'.
Qed.

Lemma init_name_index data self n c :
  init data = Ok self →
  (∃ S, distillery_codes self !! n = Some S ∧ c ∈ S)
  ↔ ∃ b name i, b ∈ data ∧ brand_name b = Some name ∧ lower name = n
                ∧ brand_id b = Some i ∧ c = py_str i.
Proof.
  unfold init, load_brands.
  destruct (load_brands_from data (∅, ∅)) as [[brands dc]|e] eqn:E; simpl; [|done].
  intros [= <-]. simpl.
  pose proof (load_brands_from_ids data (∅, ∅) (brands, dc) n c E) as Hs.
  simpl in Hs. rewrite Hs.
  split; [|by right]. intros [(S & HS & _)|?]; [|done].
  by rewrite lookup_empty in HS.
Qed.

Lemma init_has_ids data self b :
  init data = Ok self → b ∈ data → is_Some (brand_id b).
Proof.
  intros Hinit Hb.
  destruct (proj1 (has_required_keys_true b) (init_required_keys data self b Hinit Hb))
    as (_ & _ & i & _ & _ & ->).
  by exists i.
Qed.

End IndexFacts.

Section Loader.
Import BrandCommands Commands LoaderFacts IndexFacts Demo Demo2.

(** X1. The index by code holds, under every code of the dataset, the
    name, details, region and style of the last record that lists the
    code, and nothing under any other key. *)
Theorem code_index_last_wins (data : list brand) (self : cog) (s : str) :
  init data = Ok self →
  brands self !! s = info_of <$> List.find (lists_code s) (rev data).
Proof.
  unfold init, load_brands.
  destruct (load_brands_from data (∅, ∅)) as [[brands dc]|e] eqn:E; simpl; [|done].
  intros [= <-]. simpl.
  pose proof (load_brands_from_brands data (∅, ∅) (brands, dc) s E) as Hs.
  simpl in Hs. rewrite Hs.
  destruct (List.find _ _); [done|]. apply lookup_empty.
Qed.

Lemma code_index_last_wins_witness :
  info_name <$> brands (cog_of clash_data) !! py "7" = Some (py "Glen Second")
  ∧ info_name <$> brands (cog_of clash_data) !! py "70" = Some (py "Glen First")
  ∧ brands (cog_of clash_data) !! py "9" = None.
Proof.
  assert (Hinit : init clash_data = Ok (cog_of clash_data))
    by (apply cog_of_init; vm_compute; reflexivity).
  rewrite !(code_index_last_wins clash_data (cog_of clash_data) _ Hinit).
  repeat apply conj; vm_compute; reflexivity.
Defined.

(** X2. The index by name holds, under a lower-cased name, exactly the ids
    of the records with that name; the other codes of a record are not in
    it. *)
Theorem name_index_holds_ids (data : list brand) (self : cog) (n c : str) :
  init data = Ok self →
  (∃ S, distillery_codes self !! n = Some S ∧ c ∈ S)
  ↔ ∃ b name i, b ∈ data ∧ brand_name b = Some name ∧ lower name = n
                ∧ brand_id b = Some i ∧ c = py_str i.
Proof.
  unfold init, load_brands.
  destruct (load_brands_from data (∅, ∅)) as [[brands dc]|e] eqn:E; simpl; [|done].
  intros [= <-]. simpl.
  pose proof (load_brands_from_ids data (∅, ∅) (brands, dc) n c E) as Hs.
  simpl in Hs. rewrite Hs.
  split; [|by right]. intros [(S & HS & _)|?]; [|done].
  by rewrite lookup_empty in HS.
Qed.

Lemma name_index_holds_ids_witness :
  ∃ S, distillery_codes (cog_of cooley_data) !! py "cooley" = Some S ∧ py "117" ∈ S.
Proof.
  apply (name_index_holds_ids cooley_data (cog_of cooley_data)).
  - apply cog_of_init. vm_compute. reflexivity.
  - exists (record (JStr (py "117")) "Cooley" [JStr (py "117")]), (py "Cooley"),
      (JStr (py "117")).
    repeat apply conj; try reflexivity.
    apply list_elem_of_further, list_elem_of_here.
Defined.

End Loader.

(** * More about the resolver *)

Module RankingFacts.
Import Difflib DifflibFacts.

Lemma insert_desc_sorted p l :
  Sorted (λ q r : Q * str, (r.1 <= q.1)%Q) l →
  Sorted (λ q r : Q * str, (r.1 <= q.1)%Q) (insert_desc p l).
Proof.
  induction l as [|q l IH]; intros Hsorted; simpl.
  - by repeat constructor.
  - destruct (scored_leb q p) eqn:E.
    + constructor; [done|]. constructor. by apply scored_leb_fst.
    + apply Sorted_inv in Hsorted as [Hl Hhd]. constructor; [by apply IH|].
      destruct l as [|r l]; simpl.
      * constructor. by apply scored_leb_false_fst.
      * destruct (scored_leb r p).
        -- constructor. by apply scored_leb_false_fst.
        -- constructor. by apply HdRel_inv in Hhd.
Qed.

Lemma sort_desc_sorted l :
  Sorted (λ q r : Q * str, (r.1 <= q.1)%Q) (fold_right insert_desc [] l).
Proof.
  induction l as [|p l IH]; simpl; [constructor|]. by apply insert_desc_sorted.
Qed.

Lemma Sorted_take {A : Type} (R : A → A → Prop) n (l : list A) :
  Sorted R l → Sorted R (take n l).
Proof.
  revert n. induction l as [|x l IH]; intros n Hsorted; destruct n; simpl;
    try constructor.
  - apply IH. by apply Sorted_inv in Hsorted as [? _].
  - apply Sorted_inv in Hsorted as [_ Hhd].
    destruct l as [|y l], n; simpl; constructor. by apply HdRel_inv in Hhd.
Qed.

Lemma Sorted_scores word (l : list (Q * str)) :
  Forall (λ p, p.1 = ratio p.2 word) l →
  Sorted (λ q r : Q * str, (r.1 <= q.1)%Q) l →
  ranked word (List.map snd l).
Proof.
  unfold ranked. induction l as [|p l IH]; intros Hall Hsorted; simpl; [constructor|].
  apply Forall_cons in Hall as [Hp Hall].
  apply Sorted_inv in Hsorted as [Hl Hhd].
  constructor; [by apply IH|].
  destruct l as [|q l]; simpl; constructor.
  apply HdRel_inv in Hhd. apply Forall_cons in Hall as [Hq _].
  by rewrite <- Hp, <- Hq.
Qed.

(** The answers of [get_close_matches] come best first. *)
Lemma get_close_matches_ranked word ps n cutoff :
  ranked word (get_close_matches word ps n cutoff).
Proof.
  unfold get_close_matches, nlargest.
  set (scored := List.map (λ x, (ratio x word, x)) (List.filter (good_enough word cutoff) ps)).
  apply Sorted_scores.
  - apply Forall_forall. intros p Hp.
    assert (Hin : p ∈ scored).
    { rewrite <- (sorted_perm scored), <- (take_drop n (fold_right insert_desc [] scored)).
      apply elem_of_app. by left. }
    by apply list_elem_of_fmap in Hin as [x [-> _]].
  - apply Sorted_take, sort_desc_sorted.
Qed.

(** No name comes twice when none is given twice. *)
Lemma get_close_matches_NoDup word ps n cutoff :
  NoDup ps → NoDup (get_close_matches word ps n cutoff).
Proof.
  intros Hps. unfold get_close_matches, nlargest.
  set (scored := List.map (λ x, (ratio x word, x)) (List.filter (good_enough word cutoff) ps)).
  assert (Hfst : NoDup (List.map snd (fold_right insert_desc [] scored))).
  { assert (Hperm : List.map snd (fold_right insert_desc [] scored)
                    ≡ₚ List.filter (good_enough word cutoff) ps).
    { etrans; [apply Permutation_map, sorted_perm|].
      unfold scored. rewrite map_map. simpl. by rewrite map_id. }
    rewrite Hperm. apply NoDup_ListNoDup, List.NoDup_filter. by apply NoDup_ListNoDup. }
  assert (Hsub : List.map snd (take n (fold_right insert_desc [] scored))
                 `sublist_of` List.map snd (fold_right insert_desc [] scored)).
  { change (List.map snd) with (fmap (M:=list) (@snd Q str)).
    rewrite fmap_take. apply sublist_take. }
  exact (sublist_NoDup _ _ Hfst Hsub).
Qed.

End RankingFacts.

Section ResolverMore.
Import BrandCommands Difflib DifflibFacts Commands Stages ResolverFacts LoaderFacts.
Import IndexFacts RankingFacts Demo Demo2.

(** X3. The name of a record of the dataset always resolves.  When the
    table of spellings leads from it to a main name that is in the index,
    that name and its codes are returned (the record is shadowed when the
    name is another one); otherwise the record's own lower-cased name is
    returned, with the ids stored under it, the record's id among them. *)
Theorem record_name_resolves (data : list brand) (self : cog) (b : brand)
    (name : str) (i : scalar) :
  init data = Ok self →
  b ∈ data → brand_name b = Some name → brand_id b = Some i →
  (∃ n cs, find_distillery self name = Ok (Some (n, cs)))
  ∧ (∀ m S, name_variants self !! lower name = Some m →
            distillery_codes self !! lower m = Some S →
            find_distillery self name = Ok (Some (lower m, elements S)))
  ∧ ((∀ m, name_variants self !! lower name = Some m →
           lower m = lower name ∨ distillery_codes self !! lower m = None) →
     ∃ S, distillery_codes self !! lower name = Some S
          ∧ py_str i ∈ S
          ∧ py_str i ∈ elements S
          ∧ find_distillery self name = Ok (Some (lower name, elements S))).
Proof.
  intros Hinit Hb Hname Hi.
  assert (Hown : ∃ S, distillery_codes self !! lower name = Some S ∧ py_str i ∈ S).
  { apply (init_name_index data self); [done|]. by exists b, name, i. }
  destruct Hown as (S & HS & HiS).
  assert (Hdirect : alias_stage self name = None →
            find_distillery self name = Ok (Some (lower name, elements S))).
  { intros Hnone. by apply find_distillery_direct. }
  repeat apply conj.
  - destruct (alias_stage self name) as [[n cs]|] eqn:Halias.
    + exists n, cs. rewrite find_distillery_stages. unfold resolve_by_name.
      by rewrite Halias.
    + eexists _, _. by apply Hdirect.
  - intros m S' Hm HS'. by apply find_distillery_by_alias.
  - intros Htable. exists S. repeat apply conj; [done|done|by apply elem_of_elements|].
    destruct (name_variants self !! lower name) as [m|] eqn:Hm.
    + destruct (Htable m eq_refl) as [Hsame|Hnone].
      * rewrite <- Hsame. apply find_distillery_by_alias; [done|]. by rewrite Hsame.
      * apply Hdirect. unfold alias_stage. rewrite Hm. simpl. by rewrite Hnone.
    + apply Hdirect. unfold alias_stage. by rewrite Hm.
Qed.

Lemma record_name_resolves_witness :
  find_distillery (cog_of shadow_data) (py "Leven")
  = Ok (Some (lower (py "inverleven"), elements ({[ py "77" ]} : gset str)))
  ∧ ∃ S, distillery_codes (cog_of shadow_data) !! lower (py "Inverleven") = Some S
         ∧ py "77" ∈ S
         ∧ py "77" ∈ elements S
         ∧ find_distillery (cog_of shadow_data) (py "Inverleven")
           = Ok (Some (lower (py "Inverleven"), elements S)).
Proof.
  assert (Hinit : init shadow_data = Ok (cog_of shadow_data))
    by (apply cog_of_init; vm_compute; reflexivity).
  split.
  - apply (proj1 (proj2 (record_name_resolves shadow_data (cog_of shadow_data)
                           (record (JStr (py "500")) "Leven" [JStr (py "500")])
                           (py "Leven") (JStr (py "500")) Hinit
                           (list_elem_of_further _ _ _ (list_elem_of_here _ _))
                           eq_refl eq_refl))).
    + vm_compute. reflexivity.
    + vm_compute. reflexivity.
  - assert (Hm : name_variants (cog_of shadow_data) !! lower (py "Inverleven")
                 = Some (py "inverleven")) by (vm_compute; reflexivity).
    apply (proj2 (proj2 (record_name_resolves shadow_data (cog_of shadow_data)
                           (record (JStr (py "77")) "Inverleven" [JStr (py "77")])
                           (py "Inverleven") (JStr (py "77")) Hinit
                           (list_elem_of_here _ _) eq_refl eq_refl))).
    intros m Hm'. rewrite Hm in Hm'. injection Hm' as <-. by left.
Defined.

(** X4. On a loaded dataset the [distillery] command goes on to show a
    distillery exactly when [find_distillery] found a name that is not the
    empty string, and then with the name and codes found. *)
Theorem distillery_shows_what_is_found (data : list brand) (self : cog)
    (name n : str) (cs : list str) :
  init data = Ok self →
  distillery self name = Resolved n cs
  ↔ find_distillery self name = Ok (Some (n, cs)) ∧ n ≠ [].
Proof.
  intros Hinit. unfold distillery, suggest.
  destruct (find_distillery self name) as [[[n' cs']|]|e] eqn:Hfind.
  - assert (Hcs : cs' ≠ []).
    { rewrite find_distillery_stages in Hfind. injection Hfind as Hfind.
      apply resolve_by_name_in_index in Hfind as (S & HS & ->).
      destruct (init_index data self Hinit n' S HS) as [Hne _].
      intros Hnil. by apply elements_empty_inv, leibniz_equiv in Hnil. }
    destruct n' as [|c n'], cs' as [|x cs']; simpl; try done.
    + split; [by destruct (falsy _)|]. by intros [[= <- <-] ?].
    + split; [by intros [= <- <-]|]. by intros [[= <- <-] _].
  - split; [by destruct (falsy _)|]. by intros [? _].
  - split; [done|]. by intros [? _].
Qed.

Lemma distillery_shows_what_is_found_witness :
  distillery (cog_of shadow_data) (py "Leven") = Resolved (py "inverleven") [py "77"].
Proof.
  apply (distillery_shows_what_is_found shadow_data (cog_of shadow_data)).
  - apply cog_of_init. vm_compute. reflexivity.
  - split; [vm_compute; reflexivity|discriminate].
Defined.

(** X5. The names that the [distillery] command suggests are names of the
    index, all different, between one and three, the best score first. *)
Theorem suggestions_are_ranked (self : cog) (name shown : str) (l : list str) :
  distillery self name = DidYouMean shown l →
  shown = name
  ∧ l ≠ []
  ∧ (length l <= 3)%nat
  ∧ NoDup l
  ∧ ranked (lower name) l
  ∧ ∀ s, s ∈ l → is_Some (distillery_codes self !! s).
Proof.
  intros Hreply.
  assert (Hsuggest : suggest self name = DidYouMean shown l).
  { unfold distillery in Hreply.
    destruct (find_distillery self name) as [[[n cs]|]|e]; [|done|done].
    by destruct (falsy n || falsy cs). }
  unfold suggest in Hsuggest.
  destruct (get_close_matches _ _ 3 _) as [|s0 l0] eqn:Hg; simpl in Hsuggest; [done|].
  injection Hsuggest as <- <-. rewrite <- Hg. repeat apply conj.
  - done.
  - by rewrite Hg.
  - apply get_close_matches_length.
  - apply get_close_matches_NoDup. unfold keys. apply NoDup_fst_map_to_list.
  - apply get_close_matches_ranked.
  - intros s Hs. apply get_close_matches_elem in Hs as [Hs _]. by apply elem_of_keys.
Qed.

Lemma suggestions_are_ranked_witness :
  distillery (cog_of islay_data) (py "Nrard") = DidYouMean (py "Nrard") [py "ardbeg"; py "ardmore"]
  ∧ ranked (py "nrard") [py "ardbeg"; py "ardmore"].
Proof.
  assert (Hreply : distillery (cog_of islay_data) (py "Nrard")
                   = DidYouMean (py "Nrard") [py "ardbeg"; py "ardmore"])
    by (vm_compute; reflexivity).
  split; [exact Hreply|].
  by destruct (suggestions_are_ranked _ _ _ _ Hreply) as (_ & _ & _ & _ & Hranked & _).
Defined.

End ResolverMore.

(** * More about the presenter *)

Module PresenterFacts.
Import BrandCommands Commands PyText MoreCommands LoaderFacts IndexFacts.

Local Open Scope nat_scope.

Lemma truncated_length text : length (truncated text) <= 1024.
Proof.
  unfold truncated, slice_to.
  destruct (Nat.ltb_spec 1024 (length text)) as [Hlong|Hshort]; [|done].
  rewrite length_app, length_take. change (length (py "...")) with 3. lia.
Qed.

Lemma text_field_elem label inline shown value f :
  f ∈ text_field label inline shown value →
  ∃ text, value = Some text ∧ text ≠ [] ∧ f = Field (py label) (shown text) inline.
Proof.
  unfold text_field. destruct value as [text|]; [|by intros ?%elem_of_nil].
  destruct text as [|c text]; simpl; [by intros ?%elem_of_nil|].
  intros ->%list_elem_of_singleton. by exists (c :: text).
Qed.

Lemma smws_sends_embed data code e :
  smws data code = SendEmbed e →
  ∃ b name, brand_name b = Some name
            ∧ e = smws_embed b name code (upper (strip code)).
Proof.
  unfold smws.
  destruct (find_by_id data (upper (strip code))) as [[b|]|err]; simpl; [|done|done].
  destruct (brand_name b) as [name|] eqn:Hname; simpl; [|done].
  destruct (_ <? _)%N; simpl; [done|]. intros [= <-]. by exists b, name.
Qed.

Lemma str_ltb_asym s t : str_ltb s t = true → str_ltb t s = false.
Proof.
  revert t. induction s as [|c s IH]; intros [|d t]; simpl; try done.
  destruct (N.ltb_spec c d), (N.ltb_spec d c), (N.eqb_spec c d), (N.eqb_spec d c);
    simpl; try done; try lia.
  apply IH.
Qed.

Lemma str_leb_total s t : str_leb s t = false → str_leb t s = true.
Proof.
  unfold str_leb. intros H. apply negb_false_iff in H.
  apply negb_true_iff. by apply str_ltb_asym.
Qed.

Lemma insert_sorted_perm x l : insert_sorted x l ≡ₚ x :: l.
Proof.
  induction l as [|y l IH]; simpl; [done|].
  destruct (str_leb x y); [done|]. rewrite IH. apply Permutation_swap.
Qed.

Lemma sorted_is_permutation l : sorted l ≡ₚ l.
Proof.
  induction l as [|x l IH]; simpl; [done|]. by rewrite insert_sorted_perm, IH.
Qed.

Lemma insert_sorted_ascending x l : ascending l → ascending (insert_sorted x l).
Proof.
  unfold ascending. induction l as [|y l IH]; intros Hl; simpl.
  - by repeat constructor.
  - destruct (str_leb x y) eqn:E.
    + constructor; [done|by constructor].
    + apply Sorted_inv in Hl as [Hl Hhd]. constructor; [by apply IH|].
      destruct l as [|z l]; simpl.
      * constructor. by apply str_leb_total.
      * destruct (str_leb x z).
        -- constructor. by apply str_leb_total.
        -- constructor. by apply HdRel_inv in Hhd.
Qed.

Lemma sorted_ascending l : ascending (sorted l).
Proof.
  induction l as [|x l IH]; simpl; [constructor|]. by apply insert_sorted_ascending.
Qed.

Lemma entries_of_filter data codes :
  (∀ b, b ∈ data → is_Some (brand_id b)) →
  entries_of data codes
  = Ok (List.filter (λ b, match brand_id b with
                          | Some i => bool_decide (py_str i ∈ codes)
                          | None => false
                          end) data).
Proof.
  induction data as [|b data IH]; intros Hids; simpl; [done|].
  destruct (Hids b (list_elem_of_here _ _)) as [i Hi]. rewrite Hi. simpl.
  rewrite IH; [|intros b' Hb'; by apply Hids, list_elem_of_further]. simpl.
  by destruct (bool_decide (py_str i ∈ codes)).
Qed.

Ltac char_step :=
  match goal with
  | |- context [(?a <=? ?b)%N] =>
      lazymatch a with
      | context [if _ then _ else _] => fail
      | _ => lazymatch b with
             | context [if _ then _ else _] => fail
             | _ => destruct (N.leb_spec a b)
             end
      end
  | |- context [(?a =? ?b)%N] =>
      lazymatch a with
      | context [if _ then _ else _] => fail
      | _ => destruct (N.eqb_spec a b)
      end
  end;
  cbn [andb orb]; try lia.

Ltac char_cases :=
  unfold title_char, lower_char, upper_char, between; repeat char_step.

Lemma lower_char_idempotent c : lower_char (lower_char c) = lower_char c.
Proof. char_cases. Qed.

Lemma lower_idempotent s : lower (lower s) = lower s.
Proof.
  unfold lower. rewrite List.map_map. apply List.map_ext, lower_char_idempotent.
Qed.

Lemma lower_char_keeps_underscore c : c ≠ 95%N → lower_char c ≠ 95%N.
Proof. intros Hc. char_cases. Qed.

Lemma title_char_keeps_underscore c : c ≠ 95%N → 95%N ∉ title_char c.
Proof.
  intros Hc. char_cases; rewrite ?elem_of_cons, elem_of_nil; lia.
Qed.

Lemma title_from_keeps_underscore previous s :
  95%N ∉ s → 95%N ∉ title_from previous s.
Proof.
  revert previous. induction s as [|c s IH]; intros previous Hs; simpl; [done|].
  apply not_elem_of_cons in Hs as [Hc Hs].
  apply not_elem_of_app. split; [|by apply IH].
  destruct previous.
  - rewrite list_elem_of_singleton. intros Heq.
    by apply (lower_char_keeps_underscore c); [congruence|].
  - apply title_char_keeps_underscore. congruence.
Qed.

Lemma replace_underscores_none s : 95%N ∉ replace_underscores s.
Proof.
  induction s as [|c s IH]; simpl; [by apply not_elem_of_nil|].
  apply not_elem_of_cons. split; [|done].
  destruct (N.eqb_spec c 95); [done|congruence].
Qed.

Lemma lower_title_char c : (c < 128)%N → lower (title_char c) = [lower_char c].
Proof.
  intros Hc. unfold title_char, upper_char, between.
  repeat char_step; unfold lower; simpl; f_equal; char_cases.
Qed.

Lemma lower_title_from previous s :
  Forall (λ c, (c < 128)%N) s → lower (title_from previous s) = lower s.
Proof.
  revert previous. induction s as [|c s IH]; intros previous Hs; simpl; [done|].
  apply Forall_cons in Hs as [Hc Hs]. unfold lower in *.
  rewrite List.map_app, IH by done.
  change (lower_char c :: List.map lower_char s)
    with ([lower_char c] ++ List.map lower_char s).
  f_equal. destruct previous.
  - simpl. by rewrite lower_char_idempotent.
  - apply (lower_title_char c Hc).
Qed.

Lemma variants_main_names main aliases :
  (main, aliases) ∈ variants → lower main ≠ [].
Proof.
  assert (Hall : forallb (λ entry : str * list str, negb (falsy (lower entry.1))) variants
                 = true) by (vm_compute; reflexivity).
  revert Hall. generalize variants. intros table Hall Hin.
  rewrite forallb_forall in Hall. apply list_elem_of_In in Hin.
  specialize (Hall _ Hin). simpl in Hall. by destruct (lower main).
Qed.

End PresenterFacts.

Section PresenterMore.
Import BrandCommands Commands PyText MoreCommands Stages.
Import ResolverFacts LoaderFacts IndexFacts PresenterFacts Demo Demo2.

Local Open Scope nat_scope.

(** X6. In an embed sent by [smws] the description and the notes never
    exceed 1024 characters. *)
Theorem smws_text_within_limit (data : list brand) (code : str) (e : embed) (f : field) :
  smws data code = SendEmbed e →
  f ∈ fields e →
  field_name f = py "Description" ∨ field_name f = py "Notes" →
  length (field_value f) <= 1024.
Proof.
  intros Hsent Hf Hname.
  apply smws_sends_embed in Hsent as (b & name & _ & ->).
  unfold smws_embed, smws_fields in Hf. simpl in Hf.
  rewrite !elem_of_app in Hf.
  destruct Hf as [Hf|[Hf|[Hf|Hf]]].
  - apply text_field_elem in Hf as (text & _ & _ & ->).
    exfalso. simpl in Hname. by destruct Hname as [Habs|Habs]; vm_compute in Habs.
  - apply text_field_elem in Hf as (text & _ & _ & ->).
    exfalso. simpl in Hname. by destruct Hname as [Habs|Habs]; vm_compute in Habs.
  - destruct (brand_details b) as [d|]; [|by apply elem_of_nil in Hf].
    apply elem_of_app in Hf as [Hf|Hf];
      apply text_field_elem in Hf as (text & _ & _ & ->); apply truncated_length.
  - destruct (brand_codes b) as [codes|]; [|by apply elem_of_nil in Hf].
    destruct (other_codes codes (upper (strip code))); [by apply elem_of_nil in Hf|].
    apply list_elem_of_singleton in Hf as ->.
    exfalso. simpl in Hname. by destruct Hname as [Habs|Habs]; vm_compute in Habs.
Qed.

Lemma smws_text_within_limit_witness :
  length (truncated (long_text 1100)) <= 1024.
Proof.
  assert (Hsent : ∃ e, smws [wordy] (py "1") = SendEmbed e
                       ∧ Field (py "Description") (truncated (long_text 1100)) false
                           ∈ fields e).
  { eexists. split; [vm_compute; reflexivity|].
    apply list_elem_of_further, list_elem_of_here. }
  destruct Hsent as (e & Hsent & Hf).
  apply (smws_text_within_limit [wordy] (py "1") e _ Hsent Hf). by left.
Defined.

Lemma distillery_Resolved self name n cs :
  distillery self name = Resolved n cs → resolve_by_name self name = Some (n, cs).
Proof.
  unfold distillery, suggest. rewrite find_distillery_stages.
  destruct (resolve_by_name self name) as [[n' cs']|].
  - destruct (falsy n' || falsy cs'); [by destruct (falsy _)|]. by intros [= <- <-].
  - by destruct (falsy _).
Qed.

Lemma entries_of_resolved data self name n cs :
  init data = Ok self →
  resolve_by_name self name = Some (n, cs) →
  ∃ first rest,
    entries_of data cs = Ok (first :: rest)
    ∧ ∀ b, b ∈ first :: rest
           ↔ b ∈ data ∧ ∃ i, brand_id b = Some i ∧ py_str i ∈ cs.
Proof.
  intros Hinit Hres.
  apply resolve_by_name_in_index in Hres as (S & HS & ->).
  rewrite (entries_of_filter data (elements S))
    by (intros b Hb; by apply (init_has_ids data self)).
  set (keep := λ b : brand, match brand_id b with
                            | Some i => bool_decide (py_str i ∈ elements S)
                            | None => false
                            end).
  assert (Hkeep : ∀ b, b ∈ List.filter keep data
                       ↔ b ∈ data ∧ ∃ i, brand_id b = Some i ∧ py_str i ∈ elements S).
  { intros b. rewrite !list_elem_of_In, filter_In, <- !list_elem_of_In. unfold keep.
    split.
    - intros [Hb Hk]. split; [done|]. destruct (brand_id b) as [i|]; [|done].
      exists i. split; [done|]. by apply bool_decide_eq_true in Hk.
    - intros [Hb (i & Hi & Hin)]. split; [done|]. rewrite Hi.
      by apply bool_decide_eq_true. }
  destruct (init_index data self Hinit n S HS) as [Hne _].
  apply set_choose_L in Hne as [c Hc].
  destruct (proj1 (init_name_index data self n c Hinit)) as (b & nm & i & Hb & _ & _ & Hi & ->);
    [by exists S|].
  assert (Hin : b ∈ List.filter keep data).
  { apply Hkeep. split; [done|]. exists i. split; [done|]. by apply elem_of_elements. }
  destruct (List.filter keep data) as [|first rest] eqn:Hfilter;
    [by apply elem_of_nil in Hin|].
  by exists first, rest.
Qed.

(** X7. On the dataset that was loaded, a name that [distillery] resolves
    always gets its embed: the records picked by the codes are never an empty
    list, so the first of them exists; they are the records of the dataset
    whose id is one of the codes. *)
Theorem distillery_command_renders (data : list brand) (self : cog)
    (name n : str) (cs : list str) :
  init data = Ok self →
  distillery self name = Resolved n cs →
  ∃ first rest,
    distillery_command self data name
    = SendEmbed (distillery_embed n cs first (first :: rest))
    ∧ ∀ b, b ∈ first :: rest
           ↔ b ∈ data ∧ ∃ i, brand_id b = Some i ∧ py_str i ∈ cs.
Proof.
  intros Hinit Hreply.
  destruct (entries_of_resolved data self name n cs Hinit
              (distillery_Resolved _ _ _ _ Hreply)) as (first & rest & Hentries & Hall).
  exists first, rest. split; [|done].
  unfold distillery_command. by rewrite Hreply, Hentries.
Qed.

Lemma distillery_command_renders_witness :
  ∃ first rest,
    distillery_command (cog_of islay_data) islay_data (py "Ardbeg")
    = SendEmbed (distillery_embed (py "ardbeg") [py "33"] first (first :: rest))
    ∧ ∀ b, b ∈ first :: rest
           ↔ b ∈ islay_data ∧ ∃ i, brand_id b = Some i ∧ py_str i ∈ [py "33"].
Proof.
  apply (distillery_command_renders islay_data (cog_of islay_data) (py "Ardbeg")).
  - apply cog_of_init. vm_compute. reflexivity.
  - vm_compute. reflexivity.
Defined.

(** X8. The field "SMWS Codes" of the embed of [distillery] lists, in
    ascending order and each once, the ids of the records that carry the
    resolved name. *)
Theorem distillery_codes_field (data : list brand) (self : cog)
    (name n : str) (cs : list str) (e : embed) :
  init data = Ok self →
  distillery self name = Resolved n cs →
  distillery_command self data name = SendEmbed e →
  ∃ l, Field (py "SMWS Codes") (join (py ", ") l) false ∈ fields e
       ∧ ascending l
       ∧ NoDup l
       ∧ ∀ c, c ∈ l
              ↔ ∃ b full i, b ∈ data ∧ brand_name b = Some full ∧ lower full = n
                            ∧ brand_id b = Some i ∧ c = py_str i.
Proof.
  intros Hinit Hreply Hsent.
  pose proof (distillery_Resolved _ _ _ _ Hreply) as Hres.
  unfold distillery_command in Hsent. rewrite Hreply in Hsent.
  destruct (entries_of data cs) as [[|first rest]|err]; [done| |done].
  injection Hsent as <-.
  apply resolve_by_name_in_index in Hres as (S & HS & ->).
  exists (sorted (elements S)). repeat apply conj.
  - unfold distillery_embed. cbn [fields]. rewrite !elem_of_app. right. right. left.
    apply list_elem_of_here.
  - apply sorted_ascending.
  - rewrite sorted_is_permutation. apply NoDup_elements.
  - intros c. rewrite sorted_is_permutation, elem_of_elements.
    rewrite <- (init_name_index data self n c Hinit). split.
    + intros Hc. by exists S.
    + intros (S' & HS' & Hc). congruence.
Qed.

Lemma distillery_codes_field_witness :
  ∃ l, Field (py "SMWS Codes") (join (py ", ") l) false
         ∈ fields (distillery_embed (py "ardbeg") [py "33"]
                     (record (JNum 33) "Ardbeg" [JNum 33])
                     [record (JNum 33) "Ardbeg" [JNum 33]])
       ∧ ascending l
       ∧ NoDup l
       ∧ ∀ c, c ∈ l
              ↔ ∃ b full i, b ∈ islay_data ∧ brand_name b = Some full
                            ∧ lower full = py "ardbeg"
                            ∧ brand_id b = Some i ∧ c = py_str i.
Proof.
  apply (distillery_codes_field islay_data (cog_of islay_data) (py "Ardbeg")
           (py "ardbeg") [py "33"]).
  - apply cog_of_init. vm_compute. reflexivity.
  - vm_compute. reflexivity.
  - vm_compute. reflexivity.
Defined.

Lemma spelling_resolves data self main aliases spelling input S :
  init data = Ok self →
  (main, aliases) ∈ variants →
  spelling ∈ main :: aliases →
  lower input = lower spelling →
  distillery_codes self !! lower main = Some S →
  find_distillery self input = Ok (Some (lower main, elements S)).
Proof.
  intros Hinit Hentry Hspelling Hinput Hcodes.
  apply find_distillery_by_alias; [|done].
  rewrite Hinput, (init_name_variants data self Hinit).
  exact (variants_unambiguous_spec _ main aliases spelling
           variants_unambiguous_table Hentry Hspelling).
Qed.

(** X9. [moreinfo] answers any registered spelling of a distillery, in any
    letter case, as it answers the main name, and of the file it reads only
    the entry under the lower-cased main name. *)
Theorem moreinfo_accepts_any_spelling (data : list brand) (self : cog)
    (main : str) (aliases : list str) (spelling input : str) (S : gset str) :
  init data = Ok self →
  (main, aliases) ∈ variants →
  spelling ∈ main :: aliases →
  lower input = lower spelling →
  distillery_codes self !! lower main = Some S →
  (∀ details, moreinfo self details input = moreinfo self details main)
  ∧ (∀ d d', d !! lower main = d' !! lower main →
             moreinfo self (Some d) input = moreinfo self (Some d') input).
Proof.
  intros Hinit Hentry Hspelling Hinput Hcodes.
  pose proof (spelling_resolves data self main aliases spelling input S
                Hinit Hentry Hspelling Hinput Hcodes) as Hfound.
  pose proof (spelling_resolves data self main aliases main main S
                Hinit Hentry (list_elem_of_here _ _) eq_refl Hcodes) as Hmain.
  pose proof (variants_main_names main aliases Hentry) as Hname.
  split.
  - intros details. unfold moreinfo. rewrite Hfound, Hmain. simpl.
    by destruct (lower main).
  - intros d d' Hsame. unfold moreinfo. rewrite Hfound. simpl.
    by rewrite lower_idempotent, Hsame.
Qed.

Lemma moreinfo_accepts_any_spelling_witness :
  (∀ details, moreinfo (cog_of shadow_data) details (py "LEVEN")
              = moreinfo (cog_of shadow_data) details (py "inverleven"))
  ∧ (∀ d d', d !! lower (py "inverleven") = d' !! lower (py "inverleven") →
             moreinfo (cog_of shadow_data) (Some d) (py "LEVEN")
             = moreinfo (cog_of shadow_data) (Some d') (py "LEVEN")).
Proof.
  apply (moreinfo_accepts_any_spelling shadow_data (cog_of shadow_data)
           (py "inverleven") [py "leven"; py "inver"] (py "leven") (py "LEVEN")
           {[ py "77" ]}).
  - apply cog_of_init. vm_compute. reflexivity.
  - apply list_elem_of_here.
  - apply list_elem_of_further, list_elem_of_here.
  - reflexivity.
  - vm_compute. reflexivity.
Defined.

Lemma moreinfo_sends_embed self details name e :
  moreinfo self details name = SendEmbed e →
  ∃ info : list (str * str),
    info ≠ [] ∧ fields e = List.map (λ kv, Field (humanize kv.1) kv.2 false) info.
Proof.
  unfold moreinfo.
  destruct (find_distillery self name) as [found|err]; [|done].
  destruct (falsy (from_option fst [] found)); [done|].
  destruct details as [d|]; [|done].
  destruct (default [] (d !! lower (from_option fst [] found))) as [|kv info]; [done|].
  intros [= <-]. by exists (kv :: info).
Qed.

(** X10. An embed sent by [moreinfo] has at least one field, and no field
    name in it holds an underscore: every key of the file is shown with
    spaces instead. *)
Theorem moreinfo_labels_have_no_underscore (self : cog)
    (details : option (gmap str (list (str * str)))) (name : str) (e : embed) :
  moreinfo self details name = SendEmbed e →
  fields e ≠ []
  ∧ ∀ f, f ∈ fields e → (95%N ∉ field_name f) ∧ field_inline f = false.
Proof.
  intros Hsent.
  apply moreinfo_sends_embed in Hsent as (info & Hinfo & ->). split.
  - by destruct info.
  - intros f Hf. apply list_elem_of_In, in_map_iff in Hf as (kv & <- & _).
    split; [|done]. simpl. unfold humanize, PyText.title.
    apply title_from_keeps_underscore, replace_underscores_none.
Qed.

Lemma moreinfo_labels_have_no_underscore_witness :
  let shown := [Field (py "Founded In") (py "1938") false;
                Field (py "Status") (py "closed") false] in
  shown ≠ [] ∧ ∀ f, f ∈ shown → (95%N ∉ field_name f) ∧ field_inline f = false.
Proof.
  apply (moreinfo_labels_have_no_underscore (cog_of shadow_data) (Some info_file)
           (py "Leven")
           (Embed (py "Inverleven") []
                  [Field (py "Founded In") (py "1938") false;
                   Field (py "Status") (py "closed") false])).
  vm_compute. reflexivity.
Defined.

Lemma replace_underscores_lower s :
  lower (replace_underscores s) = replace_underscores (lower s).
Proof.
  unfold lower, replace_underscores. rewrite !List.map_map.
  apply List.map_ext. intros c.
  destruct (N.eqb_spec c 95) as [->|Hc]; [done|].
  destruct (N.eqb_spec (lower_char c) 95) as [Habs|_]; [|done].
  by apply lower_char_keeps_underscore in Habs.
Qed.

Lemma title_from_length previous s :
  Forall (λ c, (c < 128)%N) s → length (title_from previous s) = length s.
Proof.
  revert previous. induction s as [|c s IH]; intros previous Hs; simpl; [done|].
  apply Forall_cons in Hs as [Hc Hs].
  rewrite length_app, IH by done.
  destruct previous; [done|].
  assert (length (title_char c) = 1%nat) as ->; [char_cases; reflexivity|done].
Qed.

(** X11. For a key of 7-bit characters the label that [moreinfo] shows
    differs from the key only in the case of its letters and in a space
    for each underscore. *)
Theorem label_spells_the_key (key : str) :
  Forall (λ c, (c < 128)%N) key →
  lower (humanize key) = replace_underscores (lower key)
  ∧ length (humanize key) = length key.
Proof.
  intros Hkey.
  assert (Hspaced : Forall (λ c, (c < 128)%N) (replace_underscores key)).
  { unfold replace_underscores. apply Forall_forall. intros c Hc.
    apply list_elem_of_In, in_map_iff in Hc as (c' & <- & Hc').
    destruct (N.eqb_spec c' 95); [lia|].
    by apply (proj1 (Forall_forall _ _) Hkey), list_elem_of_In. }
  unfold humanize, PyText.title. split.
  - by rewrite lower_title_from, replace_underscores_lower.
  - rewrite title_from_length by done. unfold replace_underscores.
    apply length_map.
Qed.

Lemma label_spells_the_key_witness :
  lower (humanize (py "founded_in")) = replace_underscores (lower (py "founded_in"))
  ∧ length (humanize (py "founded_in")) = length (py "founded_in").
Proof.
  apply (label_spells_the_key (py "founded_in")).
  repeat (apply Forall_cons; split; [reflexivity|]). apply Forall_nil_2.
Defined.

End PresenterMore.

(** * Connecting with retries *)

Module RetryFacts.
Import Retry.

Local Open Scope nat_scope.

Lemma starts_app l1 l2 : starts (l1 ++ l2) = starts l1 + starts l2.
Proof. unfold starts. by rewrite List.filter_app, length_app. Qed.

Lemma slept_app l1 l2 : slept (l1 ++ l2) = slept l1 + slept l2.
Proof.
  unfold slept. rewrite List.map_app.
  induction (List.map _ l1) as [|x l IH]; simpl; [done|]. rewrite IH. lia.
Qed.

(** One turn of the loop starts the bot once; it sleeps only before a later
    turn, and ends the loop when [bot.start] returned or on the last turn. *)
Lemma attempt_step_cases attempt env :
  starts (attempt_step attempt env).1 = 1
  ∧ (attempt_step attempt env).2
    = match started env with
      | Returned => Some Completed
      | _ => if attempt <? max_retries - 1 then None else Some (Reraised attempt)
      end
  ∧ slept (attempt_step attempt env).1
    <= (if attempt <? max_retries - 1 then base_delay * 2 ^ attempt + 30 else 0)
  ∧ (started env ≠ Returned → (attempt <? max_retries - 1) = true →
     base_delay <= slept (attempt_step attempt env).1).
Proof.
  assert (Hpow : 1 <= 2 ^ attempt).
  { induction attempt as [|k IH]; simpl; lia. }
  assert (Hdelay : base_delay <= base_delay * 2 ^ attempt) by (unfold base_delay; lia).
  unfold attempt_step, wait_or_raise, cleanup.
  set (delay := base_delay * 2 ^ attempt) in *. clearbody delay.
  unfold base_delay in *.
  destruct env as [[|message|] closed]; cbn [started is_closed];
    try destruct (is_rate_limit message);
    destruct (attempt <? max_retries - 1), closed;
    unfold starts, slept; simpl; repeat apply conj; try done; try lia.
Qed.

End RetryFacts.

Section Connecting.
Import Retry RetryFacts Demo2.

Local Open Scope nat_scope.

(** X12. [run_bot_with_retry] starts the bot at least once and at most
    three times, and sleeps at most 960 seconds in all. *)
Theorem retry_is_bounded (env : nat → attempt_env) :
  1 <= starts (run_bot_with_retry env).1 <= 3
  ∧ slept (run_bot_with_retry env).1 <= 960.
Proof.
  unfold run_bot_with_retry. change (seq 0 max_retries) with [0; 1; 2].
  destruct (attempt_step_cases 0 (env 0)) as (Hs0 & He0 & Hw0 & _).
  destruct (attempt_step_cases 1 (env 1)) as (Hs1 & He1 & Hw1 & _).
  destruct (attempt_step_cases 2 (env 2)) as (Hs2 & He2 & Hw2 & _).
  change (0 <? max_retries - 1) with true in *.
  change (1 <? max_retries - 1) with true in *.
  change (2 <? max_retries - 1) with false in *.
  cbv iota in Hw0, Hw1, Hw2.
  change (base_delay * 2 ^ 0 + 30) with 330 in Hw0.
  change (base_delay * 2 ^ 1 + 30) with 630 in Hw1.
  cbn [run_from].
  destruct (attempt_step 0 (env 0)).2 as [e0|]; cbn [fst snd]; [lia|].
  destruct (attempt_step 1 (env 1)).2 as [e1|]; cbn [fst snd];
    rewrite ?starts_app, ?slept_app; [lia|].
  destruct (attempt_step 2 (env 2)).2 as [e2|]; cbn [fst snd];
    rewrite ?starts_app, ?slept_app; [lia|].
  by destruct (started (env 2)).
Qed.

(** X13. The loop ends at the first attempt whose [bot.start] returns: no
    attempt follows it and nothing is raised. *)
Theorem retry_stops_at_first_success (env : nat → attempt_env) (k : nat) :
  k < 3 →
  started (env k) = Returned →
  (∀ j, j < k → started (env j) ≠ Returned) →
  (run_bot_with_retry env).2 = Completed
  ∧ starts (run_bot_with_retry env).1 = k + 1.
Proof.
  intros Hk Hreturned Hbefore.
  unfold run_bot_with_retry. change (seq 0 max_retries) with [0; 1; 2].
  destruct (attempt_step_cases 0 (env 0)) as (Hs0 & He0 & _).
  destruct (attempt_step_cases 1 (env 1)) as (Hs1 & He1 & _).
  destruct (attempt_step_cases 2 (env 2)) as (Hs2 & He2 & _).
  change (0 <? max_retries - 1) with true in *.
  change (1 <? max_retries - 1) with true in *.
  cbn [run_from].
  destruct k as [|[|[|k]]]; [| | |lia].
  - rewrite Hreturned in He0. rewrite He0. cbn [fst snd]. by rewrite Hs0.
  - pose proof (Hbefore 0 ltac:(lia)) as H0.
    rewrite Hreturned in He1.
    destruct (started (env 0)); [done| |]; rewrite He0, He1; cbn [fst snd];
      by rewrite starts_app, Hs0, Hs1.
  - pose proof (Hbefore 0 ltac:(lia)) as H0.
    pose proof (Hbefore 1 ltac:(lia)) as H1.
    rewrite Hreturned in He2.
    destruct (started (env 0)); [done| |]; destruct (started (env 1)); try done;
      rewrite He0, He1, He2; cbn [fst snd];
      by rewrite !starts_app, Hs0, Hs1, Hs2.
Qed.

Lemma retry_stops_at_first_success_witness :
  (run_bot_with_retry twice_limited).2 = Completed
  ∧ starts (run_bot_with_retry twice_limited).1 = 2 + 1.
Proof.
  apply (retry_stops_at_first_success twice_limited 2).
  - lia.
  - reflexivity.
  - intros [|[|j]] Hj; [discriminate|discriminate|lia].
Defined.

(** X14. When no attempt returns, the error of the third attempt is raised
    again after three starts; the loop has then waited at least 600
    seconds, and it does not sleep after the third attempt. *)
Theorem retry_reraises_last_failure (env : nat → attempt_env) :
  (∀ k, k < 3 → started (env k) ≠ Returned) →
  (run_bot_with_retry env).2 = Reraised 2
  ∧ starts (run_bot_with_retry env).1 = 3
  ∧ 600 <= slept (run_bot_with_retry env).1
  ∧ ∃ before,
      (run_bot_with_retry env).1
      = before ++ Start :: (if is_closed (env 2) then [] else [Close]).
Proof.
  intros Hfail.
  pose proof (Hfail 0 ltac:(lia)) as H0.
  pose proof (Hfail 1 ltac:(lia)) as H1.
  pose proof (Hfail 2 ltac:(lia)) as H2.
  unfold run_bot_with_retry. change (seq 0 max_retries) with [0; 1; 2].
  destruct (attempt_step_cases 0 (env 0)) as (Hs0 & He0 & _ & Hw0).
  destruct (attempt_step_cases 1 (env 1)) as (Hs1 & He1 & _ & Hw1).
  destruct (attempt_step_cases 2 (env 2)) as (Hs2 & He2 & _ & _).
  change (0 <? max_retries - 1) with true in *.
  change (1 <? max_retries - 1) with true in *.
  change (2 <? max_retries - 1) with false in *.
  specialize (Hw0 H0 eq_refl). specialize (Hw1 H1 eq_refl).
  change base_delay with 300 in *.
  assert (Hn0 : (attempt_step 0 (env 0)).2 = None)
    by (rewrite He0; by destruct (started (env 0))).
  assert (Hn1 : (attempt_step 1 (env 1)).2 = None)
    by (rewrite He1; by destruct (started (env 1))).
  assert (Hn2 : (attempt_step 2 (env 2)).2 = Some (Reraised 2))
    by (rewrite He2; by destruct (started (env 2))).
  cbn [run_from]. rewrite Hn0, Hn1, Hn2. cbn [fst snd].
  rewrite !starts_app, !slept_app. repeat apply conj; [done|lia|lia|].
  exists ((attempt_step 0 (env 0)).1 ++ (attempt_step 1 (env 1)).1).
  rewrite <- app_assoc. do 2 f_equal.
  unfold attempt_step, wait_or_raise, cleanup.
  change (2 <? max_retries - 1) with false.
  destruct (started (env 2)) as [|message|]; [done| |];
    try destruct (is_rate_limit message); by destruct (is_closed (env 2)).
Qed.

Lemma retry_reraises_last_failure_witness :
  (run_bot_with_retry always_failing).2 = Reraised 2
  ∧ starts (run_bot_with_retry always_failing).1 = 3
  ∧ 600 <= slept (run_bot_with_retry always_failing).1
  ∧ ∃ before,
      (run_bot_with_retry always_failing).1
      = before ++ Start :: (if is_closed (always_failing 2) then [] else [Close]).
Proof.
  apply (retry_reraises_last_failure always_failing).
  intros k _. discriminate.
Defined.

End Connecting.

(** * A dataset with a record that has no id *)

Section Lookup.
Import Commands MoreCommands Demo.

Lemma find_by_id_raises pre b post lookup_code :
  brand_id b = None →
  (∀ b', b' ∈ pre → ∃ i, brand_id b' = Some i ∧ upper (py_str i) ≠ lookup_code) →
  find_by_id (pre ++ b :: post) lookup_code = Raise (KeyError (py "id")).
Proof.
  intros Hb. induction pre as [|b' pre IH]; intros Hpre; simpl.
  - by rewrite Hb.
  - destruct (Hpre b' (list_elem_of_here _ _)) as (i & -> & Hi). simpl.
    rewrite bool_decide_eq_false_2 by done.
    apply IH. intros b2 Hb2. by apply Hpre, list_elem_of_further.
Qed.

(** X15. [smws] reads the records in order and stops at a record without
    an id: when no record before it has the id asked for, the command
    answers with its error message, whatever follows in the dataset. *)
Theorem smws_stops_at_record_without_id (pre post : list brand) (b : brand) (code : str) :
  brand_id b = None →
  (∀ b', b' ∈ pre → ∃ i, brand_id b' = Some i ∧ upper (py_str i) ≠ upper (strip code)) →
  smws (pre ++ b :: post) code = error_occurred.
Proof.
  intros Hb Hpre. unfold smws.
  by rewrite (find_by_id_raises pre b post (upper (strip code)) Hb Hpre).
Qed.

Lemma smws_stops_at_record_without_id_witness :
  smws ([record (JNum 23) "Glenfarclas" [JNum 23]]
          ++ Brand None (Some (py "Nameless")) None None None None
             :: [record (JNum 4) "Highland Park" [JNum 4]])
       (py " 4 ")
  = error_occurred.
Proof.
  apply (smws_stops_at_record_without_id
           [record (JNum 23) "Glenfarclas" [JNum 23]]
           [record (JNum 4) "Highland Park" [JNum 4]]
           (Brand None (Some (py "Nameless")) None None None None) (py " 4 ")).
  - reflexivity.
  - intros b' Hb'. apply list_elem_of_singleton in Hb' as ->.
    exists (JNum 23). split; [reflexivity|]. vm_compute. discriminate.
Defined.

End Lookup.

(** * More checks on concrete inputs *)

Example title_ex :
  PyText.title (py "nc'nean distillery") = py "Nc'Nean Distillery".
Proof. vm_compute. reflexivity. Qed.

Example title_latin_ex :
  PyText.title [115; 116; 114; 97; 223; 101; 32; 233; 99; 111; 108; 101]
  = [83; 116; 114; 97; 223; 101; 32; 201; 99; 111; 108; 101]
  ∧ PyText.title [223; 116] = py "Sst".
Proof. vm_compute. by split. Qed.

Example sorted_ex :
  PyText.sorted [py "33"; py "4"; py "100"; py "G2"; py "g1"]
  = [py "100"; py "33"; py "4"; py "G2"; py "g1"].
Proof. vm_compute. reflexivity. Qed.

Example humanize_ex : MoreCommands.humanize (py "founded_in") = py "Founded In".
Proof. vm_compute. reflexivity. Qed.

Example is_rate_limit_ex :
  Retry.is_rate_limit (py "429 Too Many Requests") = true
  ∧ Retry.is_rate_limit (py "You are being Rate Limited.") = true
  ∧ Retry.is_rate_limit (py "500 Internal Server Error") = false.
Proof. vm_compute. by repeat apply conj. Qed.

Example retry_ex :
  Retry.run_bot_with_retry Demo2.twice_limited
  = ([Retry.Start; Retry.Sleep 300; Retry.Close; Retry.Sleep 30;
      Retry.Start; Retry.Sleep 600; Retry.Close; Retry.Sleep 30;
      Retry.Start], Retry.Completed).
Proof. vm_compute. reflexivity. Qed.

Example distillery_command_ex :
  MoreCommands.distillery_command (Demo.cog_of Demo2.islay_data) Demo2.islay_data (py "nrard")
  = SendText (py "No exact match found for 'nrard'" ++ [10; 10]
              ++ py "Did you mean one of these?" ++ [10]
              ++ py "Ardbeg" ++ [10] ++ py "Ardmore") true.
Proof. vm_compute. reflexivity. Qed.
